(** * write_body_threads: the ordered parallel writer of fast_matrix_market

    A shallow embedding of [fast_matrix_market::write_body_threads]
    (include/fast_matrix_market/write_body_threads.hpp) as a transition
    system.  The coordinating thread is a deterministic machine whose
    program points are the lines of the C++ function; the workers of the
    thread pool are the environment: at any moment any submitted task
    that is still pending may complete.  A run is a schedule, a list that
    interleaves steps of the coordinator with completions of tasks. *)

From Stdlib Require Import ZArith Lia.
From stdpp Require Import base list strings.

(** * Values *)

(** What a C++ call can throw here: whatever a chunk throws while it is
    computed, or [std::ios_base::failure] from the stream. *)
Inductive exception :=
| task_exception (what : string)
| ios_base_failure.

(** The outcome of calling a chunk ([std::string operator()()]). *)
Inductive result :=
| Returns (bytes : string)
| Throws (e : exception).

(** [write_options]; only [num_threads] is read by [write_body_threads],
    the record is otherwise passed through to [next_chunk]. *)
Record write_options := { num_threads : Z }.

(** The FORMATTER template parameter: a sequential generator of chunks.
    [has_next] is a query, [next_chunk] advances the formatter and hands
    out a chunk, [call_chunk] is the chunk's [operator()]. *)
Class Formatter (F CHUNK : Type) := {
  has_next : F -> bool;
  next_chunk : F -> write_options -> CHUNK * F;
  call_chunk : CHUNK -> result;
}.

(** * The sink: std::ostream as far as [write] is concerned

    [written] are the bytes the device has accepted, [room] the number of
    bytes it still accepts ([None]: no limit), [badbit] the stream's error
    state and [throws] whether badbit is in the stream's [exceptions()]
    mask (it is not by default).  Of the error state only badbit is
    represented: a failed append is one that sets badbit or finds it
    set.  A stream that is entered with failbit alone set, and failbit
    in the exception mask, are not represented. *)
Record ostream := {
  written : string;
  room : option nat;
  badbit : bool;
  throws : bool;
}.

Definition raise_if_masked (o : ostream) : option exception :=
  if throws o then Some ios_base_failure else None.

(** [os.write(s.c_str(), s.size())]: nothing is written through a stream
    that is already bad; a device that cannot take all of [s] takes what
    fits and the stream goes bad; the error is thrown only when masked in. *)
Definition ostream_write (o : ostream) (s : string) :
    ostream * option exception :=
  if badbit o then (o, raise_if_masked o)
  else
    match room o with
    | None =>
        ({| written := written o +:+ s; room := None;
            badbit := false; throws := throws o |}, None)
    | Some n =>
        if (String.length s <=? n)%nat then
          ({| written := written o +:+ s; room := Some (n - String.length s);
              badbit := false; throws := throws o |}, None)
        else
          ({| written := written o +:+ String.substring 0 n s; room := Some 0;
              badbit := true; throws := throws o |}, raise_if_masked o)
    end.

(** * The thread pool and the futures *)

(** The shared state behind a [std::future<std::string>]: the task has
    not finished, or its outcome is stored. *)
Inductive shared_state (CHUNK : Type) :=
| Pending (c : CHUNK)
| Ready (r : result).
Arguments Pending {CHUNK} c.
Arguments Ready {CHUNK} r.

(** [(int)] applied to the pool's [concurrency_t] (an unsigned 32-bit
    count). *)
Definition int_cast (u : Z) : Z :=
  let m := (u mod 2 ^ 32)%Z in
  if (m <? 2 ^ 31)%Z then m else (m - 2 ^ 32)%Z.

(** Line 41: [const int inflight_count = 3 * (int)pool.get_thread_count();]
    The product is taken in Z: signed overflow is undefined in C++, and
    statements that relate the window to the thread count assume the
    count is at most [max_thread_count]. *)
Definition inflight_count (thread_count : Z) : Z :=
  (3 * int_cast thread_count)%Z.

(** INT_MAX / 3 *)
Definition max_thread_count : Z := 715827882.

(** * The coordinator *)

(** Program points, named after the source lines.  [L44] and [L45] carry
    the loop counter [batch_i]; [L60] and [L61] the local [chunk]. *)
Inductive label :=
| L44 (batch_i : Z)
| L45 (batch_i : Z)
| L49
| L50
| L54
| L55
| L59
| L60 (chunk : string)
| L61 (chunk : string)
| L64
| Returned
| Raised (e : exception).

(** The calls the coordinator makes, in the order it makes them. *)
Inductive event :=
| ev_has_next (b : bool)
| ev_next_chunk
| ev_submit (id : nat)
| ev_push (id : nat)
| ev_empty (b : bool)
| ev_is_ready (id : nat) (b : bool)
| ev_get (id : nat)
| ev_pop (id : nat)
| ev_write (chunk : string)
| ev_yield.

(** A run interleaves statements of the coordinating thread with
    completions of tasks by the workers. *)
Inductive action :=
| Coordinator
| Worker (id : nat).

Fixpoint coordinator_steps (sched : list action) : nat :=
  match sched with
  | [] => 0
  | Coordinator :: sched' => S (coordinator_steps sched')
  | Worker _ :: sched' => coordinator_steps sched'
  end.

(** Modelled from the spec: the thread count that [BS::thread_pool_light]
    (3rdparty/BS_thread_pool_light.hpp, whose code is not embedded here)
    reports for a configured worker count: the configured count, with 0
    treated as 1. *)
Definition pool_thread_count (configured : Z) : Z :=
  if (configured =? 0)%Z then 1%Z else configured.

(** * Sample formatters, sinks and schedules *)

(** A formatter that hands out a scripted list of chunk outcomes. *)
#[export] Instance scripted : Formatter (list result) result := {|
  has_next f := match f with [] => false | _ :: _ => true end;
  next_chunk f _ :=
    match f with
    | c :: f' => (c, f')
    | [] => (Returns EmptyString, [])
    end;
  call_chunk c := c;
|}.

Definition unlimited_sink : ostream :=
  {| written := EmptyString; room := None; badbit := false;
     throws := false |}.

(** A device with room for [n] more bytes. *)
Definition small_sink (n : nat) (masked : bool) : ostream :=
  {| written := EmptyString; room := Some n; badbit := false;
     throws := masked |}.

Definition two_threads : write_options := {| num_threads := 2 |}.
Definition one_thread : write_options := {| num_threads := 1 |}.

Definition abcde : list result :=
  [Returns "A"; Returns "B"; Returns "C"; Returns "D"; Returns "E"].

Definition abcd : list result :=
  [Returns "A"; Returns "B"; Returns "C"; Returns "D"].

(** The third chunk throws while it is computed. *)
Definition ab_fails_de : list result :=
  [Returns "A"; Returns "B"; Throws (task_exception "bad value");
   Returns "D"; Returns "E"].

(** Four chunks of which the third throws while it is computed, the
    first two of two bytes each. *)
Definition ab_cd_fails_e : list result :=
  [Returns "AB"; Returns "CD"; Throws (task_exception "bad value");
   Returns "E"].


Definition default_threads : write_options := {| num_threads := 0 |}.

(** Prime the window (the loop of line 44 ends after [2 * n + 1]
    statements when [n] chunks were submitted). *)
Definition priming (n : nat) : list action := repeat Coordinator (2 * n + 1).

(** All five tasks finish in the reverse of the submission order before
    the coordinator starts to drain. *)
Definition reversed_completion : list action :=
  priming 5 ++ [Worker 4; Worker 3; Worker 2; Worker 1; Worker 0] ++
  repeat Coordinator 31.

(** One thread, window 3: the window is primed and the coordinator is
    about to poll the front (line 50), the first task being finished or
    not. *)
Definition front_ready_at_50 : list action :=
  priming 3 ++ [Worker 0; Coordinator].

Definition front_pending_at_50 : list action :=
  priming 3 ++ [Coordinator].

(** The first task is finished and the coordinator has refilled the
    window (it is at line 59). *)
Definition refilled_at_59 : list action :=
  priming 3 ++ [Worker 0] ++ repeat Coordinator 4.

(** The first three tasks are finished, two chunks were written and the
    coordinator is about to retrieve the third (line 59). *)
Definition third_at_59 : list action :=
  priming 3 ++ [Worker 0; Worker 1; Worker 2] ++ repeat Coordinator 17.

(** The same point of a run over four chunks, where the second drain
    step has nothing to refill. *)
Definition third_of_four_at_59 : list action :=
  priming 3 ++ [Worker 0; Worker 1; Worker 2] ++ repeat Coordinator 16.



(** Two threads, five chunks: the coordinator polls the front once in
    vain, and each task finishes just before it is retrieved. *)
Definition lazy_completion : list action :=
  priming 5 ++ repeat Coordinator 3 ++
  [Worker 0] ++ repeat Coordinator 6 ++ [Worker 1] ++ repeat Coordinator 6 ++
  [Worker 2] ++ repeat Coordinator 6 ++ [Worker 3] ++ repeat Coordinator 6 ++
  [Worker 4] ++ repeat Coordinator 7.

(** One thread: the first task is finished and its chunk was written. *)
Definition first_written : list action :=
  priming 3 ++ [Worker 0] ++ repeat Coordinator 7.

Section write_body_threads.
Context {F CHUNK : Type} `{!Formatter F CHUNK}.

(** [pool]: one shared state per submitted task, a future being the
    index of its task; [futures]: the [std::queue], front first;
    [log]: the history of the coordinator's calls, oldest first. *)
Record state := State {
  pc : label;
  formatter : F;
  pool : list (shared_state CHUNK);
  futures : list nat;
  os : ostream;
  log : list event;
}.

(** What [pool.get_thread_count()] returns, and the options. *)
Variable thread_count : Z.
Variable options : write_options.

Definition goto (l : label) (evs : list event) (s : state) : state :=
  {| pc := l; formatter := formatter s; pool := pool s;
     futures := futures s; os := os s; log := log s ++ evs |}.

(** [futures.push(pool.submit(formatter.next_chunk(options)))] *)
Definition submit_next_chunk (l : label) (s : state) : state :=
  let '(c, f') := next_chunk (formatter s) options in
  let id := length (pool s) in
  {| pc := l; formatter := f'; pool := pool s ++ [Pending c];
     futures := futures s ++ [id]; os := os s;
     log := log s ++ [ev_next_chunk; ev_submit id; ev_push id] |}.

(** One statement of the coordinating thread.  Where the C++ statement
    has no defined outcome or would block ([front()] on an empty queue,
    [get()] on a future that is not ready) the state is left as it is;
    [queue_inv] below shows that no run gets there. *)
Definition coord_step (s : state) : state :=
  match pc s with
  (* for (int batch_i = 0;
          batch_i < inflight_count && formatter.has_next(); ++batch_i) *)
  | L44 batch_i =>
      if (batch_i <? inflight_count thread_count)%Z then
        if has_next (formatter s)
        then goto (L45 batch_i) [ev_has_next true] s
        else goto L49 [ev_has_next false] s
      else goto L49 [] s
  (* futures.push(pool.submit(formatter.next_chunk(options))); *)
  | L45 batch_i => submit_next_chunk (L44 (batch_i + 1)) s
  (* while (!futures.empty()) *)
  | L49 =>
      match futures s with
      | [] => goto Returned [ev_empty true] s
      | _ :: _ => goto L50 [ev_empty false] s
      end
  (* if (is_ready(futures.front())) *)
  | L50 =>
      match futures s with
      | [] => s
      | id :: _ =>
          match pool s !! id with
          | Some (Ready _) => goto L54 [ev_is_ready id true] s
          | _ => goto L64 [ev_is_ready id false] s
          end
      end
  (* if (formatter.has_next()) *)
  | L54 =>
      if has_next (formatter s)
      then goto L55 [ev_has_next true] s
      else goto L59 [ev_has_next false] s
  (* futures.push(pool.submit(formatter.next_chunk(options))); *)
  | L55 => submit_next_chunk L59 s
  (* std::string chunk = futures.front().get(); *)
  | L59 =>
      match futures s with
      | [] => s
      | id :: _ =>
          match pool s !! id with
          | Some (Ready (Returns chunk)) => goto (L60 chunk) [ev_get id] s
          | Some (Ready (Throws e)) => goto (Raised e) [ev_get id] s
          | _ => s
          end
      end
  (* futures.pop(); *)
  | L60 chunk =>
      match futures s with
      | [] => s
      | id :: rest =>
          {| pc := L61 chunk; formatter := formatter s; pool := pool s;
             futures := rest; os := os s; log := log s ++ [ev_pop id] |}
      end
  (* os.write(chunk.c_str(), (std::streamsize) chunk.size()); *)
  | L61 chunk =>
      let '(os', thrown) := ostream_write (os s) chunk in
      {| pc := match thrown with Some e => Raised e | None => L49 end;
         formatter := formatter s; pool := pool s; futures := futures s;
         os := os'; log := log s ++ [ev_write chunk] |}
  (* std::this_thread::yield(); *)
  | L64 => goto L49 [ev_yield] s
  | Returned => s
  | Raised _ => s
  end.

(** A worker finishes task [id]: its outcome is stored in the shared
    state.  Nothing happens for a task that is finished or unknown. *)
Definition worker_completes (id : nat) (s : state) : state :=
  match pool s !! id with
  | Some (Pending c) =>
      {| pc := pc s; formatter := formatter s;
         pool := <[id := Ready (call_chunk c)]> (pool s);
         futures := futures s; os := os s; log := log s |}
  | _ => s
  end.

Definition step (a : action) (s : state) : state :=
  match a with
  | Coordinator => coord_step s
  | Worker id => worker_completes id s
  end.

Fixpoint exec (sched : list action) (s : state) : state :=
  match sched with
  | [] => s
  | a :: sched' => exec sched' (step a s)
  end.

(** Entry of the function: empty queue, fresh pool, [batch_i = 0]. *)
Definition initial (o : ostream) (f : F) : state :=
  {| pc := L44 0; formatter := f; pool := []; futures := []; os := o;
     log := [] |}.

Definition write_body_threads (sched : list action) (o : ostream) (f : F) :
    state :=
  exec sched (initial o f).


(** ** Sources, the window, and the quantities the properties speak of *)

(** The formatter [f] generates exactly the chunks [cs], in this order,
    and then reports that it has no more. *)
Inductive yields : F -> list CHUNK -> Prop :=
| yields_done f :
    has_next f = false -> yields f []
| yields_more f c f' cs :
    has_next f = true -> next_chunk f options = (c, f') ->
    yields f' cs -> yields f (c :: cs).

(** The number of chunks the priming loop can submit. *)
Definition window : Z := Z.max 0 (inflight_count thread_count).

Definition queue_length (s : state) : Z := Z.of_nat (length (futures s)).

(** Futures are pushed when their task is submitted, so the number of
    pops made so far is the difference of the two lengths. *)
Definition popped (s : state) : nat := length (pool s) - length (futures s).

(** The number of [os.write] calls made so far: at line 61 the popped
    chunk has not been written yet. *)
Definition written_count (s : state) : nat :=
  match pc s with
  | L61 _ => popped s - 1
  | _ => popped s
  end.

Fixpoint count_writes (evs : list event) : nat :=
  match evs with
  | [] => 0
  | ev_write _ :: evs' => S (count_writes evs')
  | _ :: evs' => count_writes evs'
  end.

(** The polls of line 50 that found the front future not ready. *)
Fixpoint unready_polls (evs : list event) : nat :=
  match evs with
  | [] => 0
  | ev_is_ready _ false :: evs' => S (unready_polls evs')
  | _ :: evs' => unready_polls evs'
  end.

(** Work Items submitted whose bytes have not been handed to the sink. *)
Definition outstanding (s : state) : Z :=
  (Z.of_nat (length (pool s)) - Z.of_nat (count_writes (log s)))%Z.

(** The sink after the chunks [ss] were written to it one after the other. *)
Definition write_all (ss : list string) (o : ostream) : ostream :=
  fold_left (fun o' c => fst (ostream_write o' c)) ss o.

Definition concat_bytes (ss : list string) : string :=
  fold_right String.append EmptyString ss.

Definition is_terminal (l : label) : bool :=
  match l with
  | Returned | Raised _ => true
  | _ => false
  end.

(** Worker activity between two steps of the coordinator. *)
Definition workers (ids : list nat) : list action := map Worker ids.

(** ** Invariants *)

Definition task_of (c : CHUNK) (t : shared_state CHUNK) : Prop :=
  t = Pending c \/ t = Ready (call_chunk c).

(** The future at the front of the queue holds the outcome [r]. *)
Definition front_ready (r : result) (s : state) : Prop :=
  exists id rest, futures s = id :: rest /\ pool s !! id = Some (Ready r).

(** The queue holds at most [window + extra] futures, and exactly that
    many while the formatter has more chunks. *)
Definition full_or_drained (extra : Z) (s : state) : Prop :=
  (queue_length s <= window + extra)%Z /\
  (has_next (formatter s) = true -> queue_length s = window + extra)%Z.

Definition at_pc (s : state) : Prop :=
  match pc s with
  | L44 batch_i =>
      (0 <= batch_i <= window)%Z /\ queue_length s = batch_i /\
      length (pool s) = length (futures s)
  | L45 batch_i =>
      (0 <= batch_i < inflight_count thread_count)%Z /\
      queue_length s = batch_i /\
      length (pool s) = length (futures s) /\
      has_next (formatter s) = true
  | L49 => full_or_drained 0 s
  | L50 | L64 => full_or_drained 0 s /\ futures s <> []
  | L54 => full_or_drained 0 s /\ exists r, front_ready r s
  | L55 =>
      full_or_drained 0 s /\ (exists r, front_ready r s) /\
      has_next (formatter s) = true
  | L59 => full_or_drained 1 s /\ exists r, front_ready r s
  | L60 chunk => full_or_drained 1 s /\ front_ready (Returns chunk) s
  | L61 chunk =>
      full_or_drained 0 s /\ 0 < popped s /\
      pool s !! (popped s - 1) = Some (Ready (Returns chunk))
  | Returned => full_or_drained 0 s /\ futures s = []
  | Raised e =>
      (full_or_drained 1 s /\ front_ready (Throws e) s) \/
      (full_or_drained 0 s /\ e = ios_base_failure /\
       badbit (os s) = true /\ throws (os s) = true)
  end.

(** The queue holds the futures of the tasks not yet popped, oldest
    first, and the program point agrees with the queue. *)
Record queue_inv (s : state) : Prop := {
  qi_futures : futures s = seq (popped s) (length (futures s));
  qi_length : length (futures s) <= length (pool s);
  qi_at_pc : at_pc s;
}.

(** The pool holds the tasks of the chunks generated so far, and the
    formatter will generate the remaining ones. *)
Definition chunks_inv (cs : list CHUNK) (s : state) : Prop :=
  exists submitted remaining,
    cs = submitted ++ remaining /\
    Forall2 task_of submitted (pool s) /\
    yields (formatter s) remaining.

(** The sink has received the bytes of the first [written_count] tasks,
    in order, all of which returned. *)
Definition sink_inv (o : ostream) (s : state) : Prop :=
  exists ss,
    take (written_count s) (pool s) = map (fun b => Ready (Returns b)) ss /\
    os s = write_all ss o.

(** Every [next_chunk] in the log comes right after a [has_next] that
    answered true, and so will the one about to be made. *)
Record log_inv (s : state) : Prop := {
  li_log : forall pre post,
    log s = pre ++ ev_next_chunk :: post ->
    exists pre', pre = pre' ++ [ev_has_next true];
  li_next : (exists b, pc s = L45 b) \/ pc s = L55 ->
    has_next (formatter s) = true /\
    exists pre', log s = pre' ++ [ev_has_next true];
  li_writes : count_writes (log s) = written_count s;
}.

(** A measure that every productive step of the coordinator decreases:
    the chunks still to submit count twice, the queued ones once. *)
Definition pc_weight (l : label) : nat :=
  match l with
  | L44 _ => 13
  | L45 _ => 12
  | L64 => 11
  | L49 => 10
  | L50 => 9
  | L54 => 8
  | L55 => 7
  | L59 => 6
  | L60 _ => 5
  | L61 _ => 20
  | Returned | Raised _ => 0
  end.

Definition weight (remaining : nat) (s : state) : nat :=
  16 * (2 * remaining + length (futures s)) + pc_weight (pc s).

(** [s'] differs from [s] at most in which tasks have finished. *)
Definition only_workers_ran (s s' : state) : Prop :=
  pc s' = pc s /\ formatter s' = formatter s /\ futures s' = futures s /\
  os s' = os s /\ log s' = log s /\ length (pool s') = length (pool s) /\
  (forall i r, pool s !! i = Some (Ready r) -> pool s' !! i = Some (Ready r)) /\
  (forall i c, pool s !! i = Some (Pending c) ->
     pool s' !! i = Some (Pending c) \/
     pool s' !! i = Some (Ready (call_chunk c))).

(** Workers [ids] finish their tasks, then the coordinator executes its
    next statement. *)
Definition then_coord (ids : list nat) (s : state) : state :=
  coord_step (exec (workers ids) s).

(** Program points of a drain step after the refill of line 55 and
    before the write of line 61 has happened (or the function was left
    by an exception). *)
Definition refilled_unwritten (l : label) : bool :=
  match l with
  | L59 | L60 _ | L61 _ | Raised _ => true
  | _ => false
  end.

(** [s'] has the formatter, the queue and the sink of [s], as many tasks,
    and every result that was ready in [s]. *)
Definition same_data (s s' : state) : Prop :=
  formatter s' = formatter s /\ futures s' = futures s /\ os s' = os s /\
  length (pool s') = length (pool s) /\
  (forall i r, pool s !! i = Some (Ready r) -> pool s' !! i = Some (Ready r)).

(** With an empty window the coordinator only executes the two loop
    tests: its state after [k] statements. *)
Definition idle_after (k : nat) (o : ostream) (f : F) (s : state) : Prop :=
  pool s = [] /\ futures s = [] /\ os s = o /\ formatter s = f /\
  pc s = match k with 0 => L44 0 | 1 => L49 | _ => Returned end /\
  log s = match k with 0 | 1 => [] | _ => [ev_empty true] end.

(** Unfolds the invariant of the program point at hand. *)
Ltac unfold_inv :=
  unfold at_pc, full_or_drained, queue_length, popped in *; simpl in *.

(** ** Further quantities read off the log *)

(** The futures pushed, retrieved with [get()] and popped, in the order
    of the calls. *)
Fixpoint pushed (evs : list event) : list nat :=
  match evs with
  | [] => []
  | ev_push id :: evs' => id :: pushed evs'
  | _ :: evs' => pushed evs'
  end.

Fixpoint retrieved (evs : list event) : list nat :=
  match evs with
  | [] => []
  | ev_get id :: evs' => id :: retrieved evs'
  | _ :: evs' => retrieved evs'
  end.

Fixpoint removed (evs : list event) : list nat :=
  match evs with
  | [] => []
  | ev_pop id :: evs' => id :: removed evs'
  | _ :: evs' => removed evs'
  end.

(** The futures retrieved so far are the first [g] ones, where [g] is the
    number of pops, or one more between the retrieval of line 59 and the
    pop of line 60 (or when the retrieval threw). *)
Definition retrieved_inv (s : state) : Prop :=
  pushed (log s) = seq 0 (length (pool s)) /\
  removed (log s) = seq 0 (popped s) /\
  exists g,
    retrieved (log s) = seq 0 g /\
    match pc s with
    | L60 _ => g = popped s + 1
    | Raised _ => g = popped s \/ (g = popped s + 1 /\ futures s <> [])
    | _ => g = popped s
    end.

(** Every write in the log comes right after the retrieval and the pop
    of the future that holds the bytes written; at lines 60 and 61 the
    log ends with the calls made for the local [chunk]. *)
Record write_inv (s : state) : Prop := {
  wi_log : forall pre chunk post,
    log s = pre ++ ev_write chunk :: post ->
    exists pre' id,
      pre = pre' ++ [ev_get id; ev_pop id] /\
      pool s !! id = Some (Ready (Returns chunk));
  wi_60 : forall chunk, pc s = L60 chunk ->
    exists pre' id rest,
      log s = pre' ++ [ev_get id] /\ futures s = id :: rest /\
      pool s !! id = Some (Ready (Returns chunk));
  wi_61 : forall chunk, pc s = L61 chunk ->
    exists pre' id,
      log s = pre' ++ [ev_get id; ev_pop id] /\
      pool s !! id = Some (Ready (Returns chunk));
}.

(** What handling the outcomes [rs] one after the other gives: each is
    retrieved and, unless it is an exception, written before the next is
    looked at. *)
Fixpoint in_order_outcome (rs : list result) (o : ostream) :
    label * ostream :=
  match rs with
  | [] => (Returned, o)
  | Throws e :: _ => (Raised e, o)
  | Returns chunk :: rs' =>
      match ostream_write o chunk with
      | (o', Some e) => (Raised e, o')
      | (o', None) => in_order_outcome rs' o'
      end
  end.

(** The chunks written so far were handled without an exception and left
    the sink as it is now; an exception that ended the run is the one the
    handling in order ends with. *)
Definition outcome_inv (cs : list CHUNK) (o : ostream) (s : state) : Prop :=
  match pc s with
  | Raised e => in_order_outcome (map call_chunk cs) o = (Raised e, os s)
  | _ =>
      in_order_outcome (map call_chunk cs) o =
      in_order_outcome (map call_chunk (drop (written_count s) cs)) (os s)
  end.

(** Splits the lists read off a log that was extended. *)
Ltac log_lists :=
  autorewrite with log_lists;
  cbn [pushed retrieved removed app]; rewrite ?app_nil_r.

(** * Basic facts *)

Lemma exec_app (sched1 sched2 : list action) (s : state) :
  exec (sched1 ++ sched2) s = exec sched2 (exec sched1 s).
Proof.
  revert s. induction sched1 as [|a sched1 IH]; intros s; simpl; [done|].
  apply IH.
Qed.

Lemma count_writes_app (evs1 evs2 : list event) :
  count_writes (evs1 ++ evs2) = count_writes evs1 + count_writes evs2.
Proof.
  induction evs1 as [|ev evs1 IH]; simpl; [done|].
  destruct ev; simpl; lia.
Qed.

Lemma inflight_count_in_range :
  (0 <= thread_count <= max_thread_count)%Z ->
  inflight_count thread_count = (3 * thread_count)%Z.
Proof.
  unfold inflight_count, int_cast, max_thread_count. intros Hr.
  rewrite Z.mod_small by lia.
  destruct (Z.ltb_spec thread_count (2 ^ 31)); lia.
Qed.

Lemma window_in_range :
  (0 <= thread_count <= max_thread_count)%Z -> window = (3 * thread_count)%Z.
Proof.
  intros Hr. unfold window. rewrite inflight_count_in_range by done. lia.
Qed.

(** ** The sink *)

Lemma ostream_write_bad (o : ostream) (c : string) :
  badbit o = true -> fst (ostream_write o c) = o.
Proof. unfold ostream_write. intros ->. done. Qed.

Lemma ostream_write_good (o : ostream) (c : string) :
  badbit (fst (ostream_write o c)) = false ->
  badbit o = false /\ written (fst (ostream_write o c)) = written o +:+ c.
Proof.
  unfold ostream_write. destruct (badbit o) eqn:Hb; simpl.
  - intros Hb'. congruence.
  - destruct (room o) as [n|]; simpl; [|done].
    destruct (String.length c <=? n)%nat; simpl; [done|]. intros [=].
Qed.

Lemma write_all_bad (ss : list string) (o : ostream) :
  badbit o = true -> write_all ss o = o.
Proof.
  unfold write_all. induction ss as [|c ss IH]; simpl; [done|].
  intros Hb. rewrite ostream_write_bad by done. by apply IH.
Qed.

Lemma write_all_snoc (ss : list string) (c : string) (o : ostream) :
  write_all (ss ++ [c]) o = fst (ostream_write (write_all ss o) c).
Proof. unfold write_all. by rewrite fold_left_app. Qed.

Lemma string_app_assoc (a b c : string) : (a +:+ b) +:+ c = a +:+ (b +:+ c).
Proof.
  induction a as [|x a IH]; [done|].
  change (String x ((a +:+ b) +:+ c) = String x (a +:+ (b +:+ c))).
  by rewrite IH.
Qed.

Lemma string_app_nil_r (a : string) : a +:+ EmptyString = a.
Proof.
  induction a as [|x a IH]; [done|].
  change (String x (a +:+ EmptyString) = String x a). by rewrite IH.
Qed.

Lemma write_all_good (ss : list string) (o : ostream) :
  badbit (write_all ss o) = false ->
  written (write_all ss o) = written o +:+ concat_bytes ss.
Proof.
  revert o. induction ss as [|c ss IH]; intros o Hgood.
  - simpl. by rewrite string_app_nil_r.
  - change (write_all (c :: ss) o)
      with (write_all ss (fst (ostream_write o c))) in *.
    destruct (badbit (fst (ostream_write o c))) eqn:Hb.
    + rewrite write_all_bad in Hgood by done. congruence.
    + rewrite IH by done. apply ostream_write_good in Hb as [_ ->].
      simpl. apply string_app_assoc.
Qed.

Lemma write_all_unlimited (ss : list string) (o : ostream) :
  room o = None -> badbit o = false ->
  room (write_all ss o) = None /\ badbit (write_all ss o) = false.
Proof.
  revert o. induction ss as [|c ss IH]; intros o Hroom Hb; [done|].
  change (write_all (c :: ss) o) with (write_all ss (fst (ostream_write o c))).
  apply IH; unfold ostream_write; rewrite Hb, Hroom; done.
Qed.

(** * Workers only finish tasks *)

Lemma only_workers_ran_refl (s : state) : only_workers_ran s s.
Proof. unfold only_workers_ran. naive_solver. Qed.

Lemma only_workers_ran_trans (s1 s2 s3 : state) :
  only_workers_ran s1 s2 -> only_workers_ran s2 s3 -> only_workers_ran s1 s3.
Proof.
  unfold only_workers_ran.
  intros (-> & -> & -> & -> & -> & -> & Hr & Hp).
  intros (-> & -> & -> & -> & -> & -> & Hr' & Hp').
  repeat split; [naive_solver|].
  intros i c Hi. destruct (Hp i c Hi) as [Hi'|Hi']; [by apply Hp'|].
  right. by apply Hr'.
Qed.

Lemma worker_completes_only (id : nat) (s : state) :
  only_workers_ran s (worker_completes id s).
Proof.
  unfold worker_completes.
  destruct (pool s !! id) as [[c|r]|] eqn:Hid;
    try apply only_workers_ran_refl.
  unfold only_workers_ran; simpl. rewrite length_insert.
  repeat split.
  - intros i r Hi. rewrite list_lookup_insert_ne; [done|congruence].
  - intros i c' Hi. destruct (decide (id = i)) as [->|Hne].
    + right. rewrite list_lookup_insert_eq by by eapply lookup_lt_Some.
      congruence.
    + left. by rewrite list_lookup_insert_ne.
Qed.

Lemma workers_only (ids : list nat) (s : state) :
  only_workers_ran s (exec (workers ids) s).
Proof.
  revert s. induction ids as [|id ids IH]; intros s; simpl.
  - apply only_workers_ran_refl.
  - eapply only_workers_ran_trans; [apply worker_completes_only|apply IH].
Qed.

(** Completing the task at the front makes the front ready. *)
Lemma worker_completes_front (id : nat) (s : state) :
  id < length (pool s) ->
  exists r, pool (worker_completes id s) !! id = Some (Ready r).
Proof.
  intros Hlt. unfold worker_completes.
  destruct (lookup_lt_is_Some_2 _ _ Hlt) as [[c|r] Hid]; rewrite Hid; simpl.
  - exists (call_chunk c). by rewrite list_lookup_insert_eq.
  - by exists r.
Qed.

(** ** The invariants are stable under worker activity *)

Lemma popped_only (s s' : state) :
  only_workers_ran s s' -> popped s' = popped s.
Proof.
  intros (_ & _ & Hf & _ & _ & Hl & _). unfold popped. by rewrite Hf, Hl.
Qed.

Lemma written_count_only (s s' : state) :
  only_workers_ran s s' -> written_count s' = written_count s.
Proof.
  intros H. unfold written_count. rewrite (popped_only _ _ H).
  destruct H as (-> & _). done.
Qed.

Lemma full_or_drained_only (extra : Z) (s s' : state) :
  only_workers_ran s s' -> full_or_drained extra s -> full_or_drained extra s'.
Proof.
  intros (_ & Hfm & Hf & _). unfold full_or_drained, queue_length.
  by rewrite Hfm, Hf.
Qed.

Lemma front_ready_only (r : result) (s s' : state) :
  only_workers_ran s s' -> front_ready r s -> front_ready r s'.
Proof.
  intros (_ & _ & Hf & _ & _ & _ & Hr & _) (id & rest & Hq & Hid).
  exists id, rest. rewrite Hf. split; [done|]. by apply Hr.
Qed.

Lemma at_pc_only (s s' : state) :
  only_workers_ran s s' -> at_pc s -> at_pc s'.
Proof.
  intros H. pose proof (popped_only _ _ H) as Hpop.
  pose proof (full_or_drained_only 0 _ _ H) as Hfd0.
  pose proof (full_or_drained_only 1 _ _ H) as Hfd1.
  pose proof (fun r => front_ready_only r _ _ H) as Hfr.
  destruct H as (Hpc & Hfm & Hf & Hos & _ & Hl & Hr & _).
  unfold at_pc, queue_length. rewrite Hpc, Hfm, Hf, Hl, Hos, Hpop.
  destruct (pc s); naive_solver.
Qed.

Lemma queue_inv_only (s s' : state) :
  only_workers_ran s s' -> queue_inv s -> queue_inv s'.
Proof.
  intros H [Hq Hlen Hpc]. split.
  - rewrite (popped_only _ _ H). destruct H as (_ & _ & -> & _). done.
  - destruct H as (_ & _ & -> & _ & _ & -> & _). done.
  - by eapply at_pc_only.
Qed.

Lemma log_inv_only (s s' : state) :
  only_workers_ran s s' -> log_inv s -> log_inv s'.
Proof.
  intros H [Hlog Hnext Hw]. pose proof (written_count_only _ _ H) as Hwc.
  destruct H as (Hpc & Hfm & _ & _ & Hl & _).
  split; rewrite ?Hpc, ?Hfm, ?Hl, ?Hwc; done.
Qed.

Lemma sink_inv_only (o : ostream) (s s' : state) :
  only_workers_ran s s' -> sink_inv o s -> sink_inv o s'.
Proof.
  intros H (ss & Htake & Hos). exists ss.
  rewrite (written_count_only _ _ H).
  destruct H as (_ & _ & _ & -> & _ & Hl & Hr & _). split; [|done].
  rewrite <- Htake. apply list_eq. intros i.
  destruct (decide (i < written_count s)) as [Hlt|Hge].
  - rewrite !lookup_take_lt by done.
    assert (take (written_count s) (pool s) !! i = pool s !! i) as Hi
      by by rewrite lookup_take_lt.
    rewrite Htake, list_lookup_fmap in Hi.
    destruct (pool s !! i) as [t|] eqn:Ht.
    + destruct (ss !! i) as [b|]; simplify_eq/=. by apply Hr.
    + apply lookup_ge_None in Ht. apply lookup_ge_None. lia.
  - rewrite !lookup_take_ge by lia. done.
Qed.

Lemma chunks_inv_worker (cs : list CHUNK) (id : nat) (s : state) :
  chunks_inv cs s -> chunks_inv cs (worker_completes id s).
Proof.
  intros (sub & rem & Hcs & Hall & Hy). exists sub, rem.
  unfold worker_completes.
  destruct (pool s !! id) as [[c|r]|] eqn:Hid; try done. simpl.
  split; [done|]. split; [|done].
  destruct (Forall2_lookup_r _ _ _ _ _ Hall Hid) as (c' & Hc' & [Ht|Ht]);
    [|done].
  simplify_eq. rewrite <- (list_insert_id sub id c') by done.
  apply Forall2_insert; [done|]. by right.
Qed.

Lemma chunks_inv_workers (cs : list CHUNK) (ids : list nat) (s : state) :
  chunks_inv cs s -> chunks_inv cs (exec (workers ids) s).
Proof.
  revert s. induction ids as [|id ids IH]; intros s H; simpl; [done|].
  by apply IH, chunks_inv_worker.
Qed.

(** * The coordinator preserves the invariants *)

Lemma submit_next_chunk_spec (l : label) (s : state) :
  exists c f',
    next_chunk (formatter s) options = (c, f') /\
    submit_next_chunk l s =
      {| pc := l; formatter := f'; pool := pool s ++ [Pending c];
         futures := futures s ++ [length (pool s)]; os := os s;
         log := log s ++ [ev_next_chunk; ev_submit (length (pool s));
                          ev_push (length (pool s))] |}.
Proof.
  unfold submit_next_chunk.
  destruct (next_chunk (formatter s) options) as [c f']. by exists c, f'.
Qed.

Lemma push_keeps_seq (s : state) (t : shared_state CHUNK) :
  futures s = seq (popped s) (length (futures s)) ->
  length (futures s) <= length (pool s) ->
  futures s ++ [length (pool s)] =
    seq (length (pool s ++ [t]) - length (futures s ++ [length (pool s)]))
        (length (futures s ++ [length (pool s)])).
Proof.
  intros Hq Hlen. rewrite !length_app. simpl.
  replace (length (pool s) + 1 - (length (futures s) + 1)) with (popped s)
    by (unfold popped; lia).
  replace (length (futures s) + 1) with (S (length (futures s))) by lia.
  rewrite seq_S, <- Hq. do 2 f_equal. unfold popped. lia.
Qed.

Lemma front_ready_push (r : result) (s : state) (l : label) (f : F)
    (t : shared_state CHUNK) (n : nat) (evs : list event) :
  front_ready r s ->
  front_ready r {| pc := l; formatter := f; pool := pool s ++ [t];
                   futures := futures s ++ [n]; os := os s; log := evs |}.
Proof.
  intros (id & rest & Hq & Hid). exists id, (rest ++ [n]). simpl.
  rewrite Hq. split; [done|]. by apply lookup_app_l_Some.
Qed.

Lemma ostream_write_thrown (o o' : ostream) (c : string) (e : exception) :
  ostream_write o c = (o', Some e) ->
  e = ios_base_failure /\ badbit o' = true /\ throws o' = true.
Proof.
  unfold ostream_write, raise_if_masked.
  destruct (badbit o) eqn:Hb.
  - destruct (throws o) eqn:Ht; intros [= <- <-]; done.
  - destruct (room o) as [n|]; [|intros [=]].
    destruct (String.length c <=? n)%nat; [intros [=]|].
    destruct (throws o) eqn:Ht; intros [= <- <-]; done.
Qed.

Lemma coord_step_queue_inv (s : state) :
  queue_inv s -> queue_inv (coord_step s).
Proof.
  intros Hinv. pose proof Hinv as [Hq Hlen Hpc].
  unfold coord_step. unfold at_pc in Hpc.
  destruct (pc s) eqn:Epc.
  - (* line 44 *)
    destruct (Z.ltb_spec batch_i (inflight_count thread_count));
      [destruct (has_next (formatter s)) eqn:Hn|];
      (split; [done..|]); unfold_inv; unfold window in *;
      repeat split; try lia; congruence.
  - (* line 45 *)
    destruct (submit_next_chunk_spec (L44 (batch_i + 1)) s)
      as (c & f' & _ & ->).
    split; simpl.
    + by apply push_keeps_seq.
    + rewrite !length_app. simpl. lia.
    + unfold_inv. rewrite !length_app. simpl. unfold window. lia.
  - (* line 49 *)
    destruct (futures s) as [|id rest] eqn:Hf.
    + split; [apply Hinv..|]. unfold_inv. done.
    + split; [apply Hinv..|]. unfold_inv. split; [done|]. by rewrite Hf.
  - (* line 50 *)
    destruct Hpc as [Hfd Hne].
    destruct (futures s) as [|id rest] eqn:Hf; [done|].
    assert (futures s <> []) as Hne' by by rewrite Hf.
    destruct (pool s !! id) as [[c|r]|] eqn:Hid;
      (split; [apply Hinv..|]); unfold_inv; try done.
    split; [done|]. by exists r, id, rest.
  - (* line 54 *)
    destruct Hpc as [Hfd Hfr].
    destruct (has_next (formatter s)) eqn:Hn;
      (split; [done..|]); unfold_inv; [done|].
    split; [|done]. split; [lia|]. intros; congruence.
  - (* line 55 *)
    destruct Hpc as (Hfd & [r Hfr] & Hn).
    destruct (submit_next_chunk_spec L59 s) as (c & f' & _ & ->).
    split; simpl.
    + by apply push_keeps_seq.
    + rewrite !length_app. simpl. lia.
    + unfold_inv. rewrite !length_app. simpl.
      destruct Hfd as [_ Hfull]. specialize (Hfull Hn).
      split; [split; [lia|intros _; lia]|].
      exists r. by apply front_ready_push.
  - (* line 59 *)
    destruct Hpc as [Hfd [r Hfr]].
    destruct (futures s) as [|id rest] eqn:Hf; [done|].
    destruct (pool s !! id) as [[c|[chunk|e]]|] eqn:Hid; try done;
      (split; [apply Hinv..|]); unfold_inv.
    + split; [done|]. by exists id, rest.
    + left. split; [done|]. by exists id, rest.
  - (* line 60 *)
    destruct Hpc as [Hfd (id' & rest' & Hf' & Hid')].
    destruct (futures s) as [|id rest] eqn:Hf; [done|].
    simplify_eq. simpl in Hq, Hlen. injection Hq as Hid Hrest.
    assert (popped s = length (pool s) - S (length rest')) as Hpop
      by (unfold popped; by rewrite Hf).
    split; simpl.
    + unfold popped. simpl.
      replace (length (pool s) - length rest') with (S (popped s)) by lia.
      done.
    + lia.
    + unfold_inv. rewrite Hf in Hfd. simpl in Hfd.
      replace (length (pool s) - length rest' - 1) with id' by lia.
      destruct Hfd as [Hle Hfull].
      split; [split; [lia|intros Hn; specialize (Hfull Hn); lia]|].
      split; [lia|done].
  - (* line 61 *)
    destruct Hpc as (Hfd & Hpos & Hlast).
    destruct (ostream_write (os s) chunk) as [os' [e|]] eqn:Hw;
      (split; [done..|]); unfold_inv; [|done].
    right. apply ostream_write_thrown in Hw. naive_solver.
  - (* line 64 *)
    destruct Hpc as [Hfd Hne]. split; done.
  - done.
  - done.
Qed.

(** ** Reachable states *)

Lemma queue_inv_initial (o : ostream) (f : F) : queue_inv (initial o f).
Proof.
  split; [done| done |]. unfold at_pc, window, queue_length. simpl. lia.
Qed.

Lemma step_queue_inv (a : action) (s : state) :
  queue_inv s -> queue_inv (step a s).
Proof.
  destruct a as [|id]; simpl.
  - apply coord_step_queue_inv.
  - apply queue_inv_only, worker_completes_only.
Qed.

Lemma exec_queue_inv (sched : list action) (s : state) :
  queue_inv s -> queue_inv (exec sched s).
Proof.
  revert s. induction sched as [|a sched IH]; intros s H; simpl; [done|].
  by apply IH, step_queue_inv.
Qed.

(** ** What one step does to the counters *)

Lemma written_count_step (s : state) :
  queue_inv s ->
  written_count (coord_step s) =
    match pc s with
    | L61 _ => S (written_count s)
    | _ => written_count s
    end.
Proof.
  intros [Hq Hlen Hpc]. unfold coord_step, written_count.
  unfold at_pc, front_ready in Hpc.
  destruct (pc s) eqn:Epc; try by rewrite Epc.
  all: try destruct (submit_next_chunk_spec (L44 (batch_i + 1)) s)
         as (c & f' & _ & ->).
  all: try destruct (submit_next_chunk_spec L59 s) as (c & f' & _ & ->).
  all: repeat case_match; simplify_eq/=; rewrite ?Epc; try done.
  all: unfold popped in *; simpl; rewrite ?length_app; simpl; try lia.
  all: try congruence.
  match goal with
  | H : futures s = _ :: _ |- _ => apply (f_equal length) in H; simpl in H
  end.
  lia.
Qed.

Lemma count_writes_step (s : state) :
  count_writes (log (coord_step s)) =
    match pc s with
    | L61 _ => S (count_writes (log s))
    | _ => count_writes (log s)
    end.
Proof.
  unfold coord_step.
  destruct (pc s) eqn:Epc; try done.
  all: try destruct (submit_next_chunk_spec (L44 (batch_i + 1)) s)
         as (c & f' & _ & ->).
  all: try destruct (submit_next_chunk_spec L59 s) as (c & f' & _ & ->).
  all: repeat case_match; simplify_eq/=; rewrite ?count_writes_app; simpl.
  all: lia.
Qed.

(** An occurrence of [ev_next_chunk] in an extended log is in the old
    log or in the extension. *)
Lemma next_chunk_in_app (evs1 evs2 pre post : list event) :
  evs1 ++ evs2 = pre ++ ev_next_chunk :: post ->
  (exists post', evs1 = pre ++ ev_next_chunk :: post') \/
  (exists mid, pre = evs1 ++ mid /\ evs2 = mid ++ ev_next_chunk :: post).
Proof.
  intros H. apply app_eq_inv in H as [(k & Hk1 & Hk2)|(k & Hk1 & Hk2)].
  - destruct k as [|ev k]; simpl in *.
    + right. exists []. rewrite app_nil_r in *. done.
    + left. exists k. by simplify_eq.
  - right. by exists k.
Qed.

Lemma coord_step_log_inv (s : state) :
  queue_inv s -> log_inv s -> log_inv (coord_step s).
Proof.
  intros Hq [Hlog Hnext Hw]. split.
  - intros pre post Heq.
    assert (forall evs, log (coord_step s) = log s ++ evs ->
              (forall mid, evs <> mid ++ ev_next_chunk :: post) ->
              exists pre', pre = pre' ++ [ev_has_next true]) as Hold.
    { intros evs Hevs Hno. rewrite Hevs in Heq.
      apply next_chunk_in_app in Heq as [[post' Hl]|(mid & _ & Hm)].
      - by eapply Hlog.
      - by destruct (Hno mid). }
    unfold coord_step in *.
    destruct (pc s) eqn:Epc.
    all: try destruct (submit_next_chunk_spec (L44 (batch_i + 1)) s)
           as (c & f' & _ & Hs); try rewrite Hs in *.
    all: try destruct (submit_next_chunk_spec L59 s) as (c & f' & _ & Hs);
           try rewrite Hs in *.
    all: try by eapply Hlog.
    all: repeat case_match; simplify_eq/=; try by eapply Hlog.
    all: try (eapply Hold; [done|]; intros mid Hm;
              by repeat (destruct mid as [|? mid]; simplify_eq/=)).
    all: apply next_chunk_in_app in Heq as [[post' Hl]|(mid & -> & Hm)];
           [by eapply Hlog|].
    all: destruct mid as [|? mid]; simplify_eq/=;
           [rewrite app_nil_r; apply Hnext; eauto|].
    all: by repeat (destruct mid as [|? mid]; simplify_eq/=).
  - intros Hpc'. unfold coord_step in *.
    destruct (pc s) eqn:Epc.
    all: try destruct (submit_next_chunk_spec (L44 (batch_i + 1)) s)
           as (c & f' & _ & Hs); try rewrite Hs in *.
    all: try destruct (submit_next_chunk_spec L59 s) as (c & f' & _ & Hs);
           try rewrite Hs in *.
    all: repeat case_match; simplify_eq/=.
    all: try (destruct Hpc' as [[? ?]|?]; congruence).
    all: try (destruct Hpc' as [[? ?]|?]; simplify_eq/=; eauto).
  - rewrite count_writes_step, written_count_step by done.
    destruct (pc s); by rewrite Hw.
Qed.

(** ** The source, the pool and the sink along a step *)

Lemma coord_step_source (s : state) :
  (((exists b, pc s = L45 b) \/ pc s = L55) /\
   exists c f',
     next_chunk (formatter s) options = (c, f') /\
     formatter (coord_step s) = f' /\
     pool (coord_step s) = pool s ++ [Pending c] /\
     futures (coord_step s) = futures s ++ [length (pool s)]) \/
  (formatter (coord_step s) = formatter s /\ pool (coord_step s) = pool s).
Proof.
  unfold coord_step. destruct (pc s) eqn:Epc.
  all: try destruct (submit_next_chunk_spec (L44 (batch_i + 1)) s)
         as (c & f' & Hn & Hs); try rewrite Hs in *.
  all: try destruct (submit_next_chunk_spec L59 s) as (c & f' & Hn & Hs);
         try rewrite Hs in *.
  all: repeat case_match; simplify_eq/=; eauto 10.
Qed.

Lemma coord_step_os (s : state) :
  os (coord_step s) =
    match pc s with
    | L61 chunk => fst (ostream_write (os s) chunk)
    | _ => os s
    end.
Proof.
  unfold coord_step. destruct (pc s) eqn:Epc; try done.
  all: try destruct (submit_next_chunk_spec (L44 (batch_i + 1)) s)
         as (c & f' & Hn & Hs); try rewrite Hs in *.
  all: try destruct (submit_next_chunk_spec L59 s) as (c & f' & Hn & Hs);
         try rewrite Hs in *.
  all: repeat case_match; simplify_eq/=; done.
Qed.

Lemma written_count_le (s : state) : written_count s <= length (pool s).
Proof. unfold written_count, popped. destruct (pc s); lia. Qed.

Lemma coord_step_sink_inv (o : ostream) (s : state) :
  queue_inv s -> sink_inv o s -> sink_inv o (coord_step s).
Proof.
  intros Hq (ss & Htake & Hos).
  pose proof (written_count_step s Hq) as Hwc.
  pose proof (coord_step_os s) as Hos'.
  pose proof (written_count_le s) as Hle.
  assert (exists extra, pool (coord_step s) = pool s ++ extra) as [extra Hp].
  { destruct (coord_step_source s) as [(_ & c & f' & _ & _ & -> & _)|[_ ->]].
    - by eexists.
    - exists []. by rewrite app_nil_r. }
  unfold sink_inv. rewrite Hwc, Hos', Hp.
  destruct (pc s) eqn:Epc;
    try (exists ss; by rewrite take_app_le by done).
  destruct Hq as [_ _ Hpc]. unfold at_pc in Hpc. rewrite Epc in Hpc.
  destruct Hpc as (_ & Hpos & Hlast).
  unfold written_count in *. rewrite Epc in *.
  exists (ss ++ [chunk]).
  rewrite take_app_le by (apply lookup_lt_Some in Hlast; lia).
  rewrite (take_S_r _ _ _ Hlast), Htake, map_app, write_all_snoc, Hos.
  done.
Qed.

Lemma yields_has_next (f : F) (cs : list CHUNK) :
  yields f cs -> has_next f = true ->
  exists c f' cs',
    cs = c :: cs' /\ next_chunk f options = (c, f') /\ yields f' cs'.
Proof. intros [f0 Hn|f0 c f' cs' Hn Hc Hy] Ht; [congruence|eauto 10]. Qed.

Lemma yields_no_next (f : F) (cs : list CHUNK) :
  yields f cs -> has_next f = false -> cs = [].
Proof. intros [f0 Hn|f0 c f' cs' Hn Hc Hy] Ht; [done|congruence]. Qed.

Lemma coord_step_chunks_inv (cs : list CHUNK) (s : state) :
  queue_inv s -> chunks_inv cs s -> chunks_inv cs (coord_step s).
Proof.
  intros [_ _ Hpc] (sub & rem & Hcs & Hall & Hy). unfold chunks_inv.
  destruct (coord_step_source s)
    as [(Hat & c & f' & Hn & -> & -> & _)|[-> ->]]; [|eauto].
  assert (has_next (formatter s) = true) as Ht.
  { unfold at_pc in Hpc. destruct Hat as [[b Hb]|Hb]; rewrite Hb in Hpc;
      naive_solver. }
  destruct (yields_has_next _ _ Hy Ht) as (c' & f'' & rem' & -> & Hn' & Hy').
  rewrite Hn in Hn'. injection Hn' as <- <-.
  exists (sub ++ [c]), rem'. rewrite <- app_assoc.
  split; [done|]. split; [|done].
  apply Forall2_app; [done|]. constructor; [by left|constructor].
Qed.

(** ** All invariants hold in every state of every run *)

Lemma log_inv_initial (o : ostream) (f : F) : log_inv (initial o f).
Proof.
  split; simpl.
  - intros [|? pre] post; simpl; intros [=].
  - intros [[b [=]]|[=]].
  - done.
Qed.

Lemma sink_inv_initial (o : ostream) (f : F) : sink_inv o (initial o f).
Proof. by exists []. Qed.

Lemma chunks_inv_initial (o : ostream) (f : F) (cs : list CHUNK) :
  yields f cs -> chunks_inv cs (initial o f).
Proof.
  intros Hy. exists [], cs. simpl. split; [done|].
  split; [constructor|done].
Qed.

Lemma exec_invariants (o : ostream) (sched : list action) (s : state) :
  queue_inv s -> log_inv s -> sink_inv o s ->
  queue_inv (exec sched s) /\ log_inv (exec sched s) /\
  sink_inv o (exec sched s).
Proof.
  revert s. induction sched as [|a sched IH]; intros s Hq Hl Hs; simpl;
    [done|].
  apply IH.
  - by apply step_queue_inv.
  - destruct a as [|id]; simpl.
    + by apply coord_step_log_inv.
    + eapply log_inv_only; [apply worker_completes_only|done].
  - destruct a as [|id]; simpl.
    + by apply coord_step_sink_inv.
    + eapply sink_inv_only; [apply worker_completes_only|done].
Qed.

Lemma exec_chunks_inv (cs : list CHUNK) (sched : list action) (s : state) :
  queue_inv s -> chunks_inv cs s -> chunks_inv cs (exec sched s).
Proof.
  revert s. induction sched as [|a sched IH]; intros s Hq Hc; simpl;
    [done|].
  apply IH; [by apply step_queue_inv|].
  destruct a as [|id]; simpl.
  - by apply coord_step_chunks_inv.
  - by apply chunks_inv_worker.
Qed.

Lemma run_invariants (sched : list action) (o : ostream) (f : F) :
  let s := write_body_threads sched o f in
  queue_inv s /\ log_inv s /\ sink_inv o s.
Proof.
  apply exec_invariants;
    auto using queue_inv_initial, log_inv_initial, sink_inv_initial.
Qed.

Lemma run_chunks_inv (cs : list CHUNK) (sched : list action) (o : ostream)
    (f : F) :
  yields f cs -> chunks_inv cs (write_body_threads sched o f).
Proof.
  intros Hy. apply exec_chunks_inv;
    auto using queue_inv_initial, chunks_inv_initial.
Qed.

(** * Terminal states *)

Lemma terminal_coord_step (s : state) :
  is_terminal (pc s) = true -> coord_step s = s.
Proof. unfold coord_step. by destruct (pc s). Qed.

Lemma terminal_exec (sched : list action) (s : state) :
  is_terminal (pc s) = true -> only_workers_ran s (exec sched s).
Proof.
  revert s. induction sched as [|a sched IH]; intros s Ht; simpl.
  - apply only_workers_ran_refl.
  - destruct a as [|id]; simpl.
    + rewrite terminal_coord_step by done. by apply IH.
    + pose proof (worker_completes_only id s) as Hw.
      eapply only_workers_ran_trans; [done|]. apply IH.
      destruct Hw as (-> & _). done.
Qed.

(** * Progress *)

(** The coordinator never waits in [get()]: at line 59 the front future
    holds its outcome. *)
Lemma get_never_blocks (sched : list action) (o : ostream) (f : F) :
  let s := write_body_threads sched o f in
  pc s = L59 -> exists r, front_ready r s.
Proof.
  intros s Hpc.
  assert (queue_inv s) as [_ _ Hat]
    by apply exec_queue_inv, queue_inv_initial.
  unfold at_pc in Hat. rewrite Hpc in Hat. by destruct Hat.
Qed.

Lemma front_in_pool (s : state) (id : nat) (rest : list nat) :
  queue_inv s -> futures s = id :: rest -> id < length (pool s).
Proof.
  intros [Hq Hlen _] Hf. rewrite Hf in Hq, Hlen. simpl in *.
  injection Hq as Hid _. unfold popped in Hid. rewrite Hf in Hid.
  simpl in Hid. lia.
Qed.

(** Unless the coordinator is polling a front that is not ready, its
    next step decreases the weight. *)
Lemma coord_step_weight (s : state) (rem : list CHUNK) :
  queue_inv s -> yields (formatter s) rem ->
  is_terminal (pc s) = false ->
  (pc s = L50 -> exists r, front_ready r s) ->
  exists rem',
    yields (formatter (coord_step s)) rem' /\
    weight (length rem') (coord_step s) < weight (length rem) s.
Proof.
  intros [Hq Hlen Hpc] Hy Hnt Hfront.
  unfold at_pc, front_ready in *. unfold coord_step, weight. 
  destruct (pc s) eqn:Epc; try done.
  - destruct (batch_i <? inflight_count thread_count)%Z;
      [destruct (has_next (formatter s))|];
      exists rem; (split; [done|]); cbn [goto futures pc pc_weight]; lia.
  - destruct (submit_next_chunk_spec (L44 (batch_i + 1)) s)
      as (c & f' & Hn & ->).
    destruct (yields_has_next _ _ Hy) as (c' & f'' & rem' & -> & Hn' & Hy');
      [naive_solver|].
    rewrite Hn in Hn'. injection Hn' as <- <-. exists rem'.
    split; [done|]. cbn [futures pc pc_weight length]. rewrite length_app.
    cbn [length]. lia.
  - destruct (futures s) as [|id rest] eqn:Hf; exists rem;
      (split; [done|]); cbn [goto futures pc pc_weight]; rewrite Hf; lia.
  - destruct Hfront as (r & id & rest & Hf & Hid); [done|].
    rewrite Hf, Hid. exists rem. split; [done|].
    cbn [goto futures pc pc_weight length]. rewrite Hf. cbn [length]. lia.
  - destruct (has_next (formatter s)); exists rem; (split; [done|]);
      cbn [goto futures pc pc_weight]; lia.
  - destruct (submit_next_chunk_spec L59 s) as (c & f' & Hn & ->).
    destruct (yields_has_next _ _ Hy) as (c' & f'' & rem' & -> & Hn' & Hy');
      [naive_solver|].
    rewrite Hn in Hn'. injection Hn' as <- <-. exists rem'.
    split; [done|]. cbn [futures pc pc_weight length]. rewrite length_app.
    cbn [length]. lia.
  - destruct Hpc as (_ & r & id & rest & Hf & Hid). rewrite Hf, Hid.
    destruct r as [chunk|e]; exists rem; (split; [done|]);
      cbn [goto futures pc pc_weight]; rewrite Hf; lia.
  - destruct Hpc as (_ & id & rest & Hf & Hid). rewrite Hf.
    exists rem. split; [done|]. cbn [futures pc pc_weight length]. lia.
  - destruct (ostream_write (os s) chunk) as [os' [e|]]; exists rem;
      (split; [done|]); cbn [futures pc pc_weight]; lia.
  - exists rem. split; [done|]. cbn [goto futures pc pc_weight]. lia.
Qed.

Lemma progress (n : nat) (s : state) (rem : list CHUNK) :
  weight (length rem) s < n ->
  queue_inv s -> yields (formatter s) rem ->
  exists sched, is_terminal (pc (exec sched s)) = true.
Proof.
  revert s rem. induction n as [|n IH]; intros s rem Hw Hq Hy; [lia|].
  destruct (is_terminal (pc s)) eqn:Hnt; [by exists []|].
  assert (pc s = L50 \/ pc s <> L50) as [H50|H50]
    by (destruct (pc s); auto).
  - (* let the task at the front finish, then poll it *)
    pose proof Hq as [_ _ Hpc]. unfold at_pc in Hpc. rewrite H50 in Hpc.
    destruct Hpc as [_ Hne].
    destruct (futures s) as [|id rest] eqn:Hf; [done|].
    pose proof (front_in_pool s id rest Hq Hf) as Hlt.
    pose proof (worker_completes_only id s) as Hon.
    destruct (worker_completes_front id s Hlt) as [r Hr].
    set (s1 := worker_completes id s) in *.
    assert (queue_inv s1) as Hq1 by by eapply queue_inv_only.
    destruct Hon as (Hpc1 & Hfm1 & Hf1 & _).
    destruct (coord_step_weight s1 rem) as (rem' & Hy' & Hw');
      [done|by rewrite Hfm1|by rewrite Hpc1|..].
    { intros _. exists r, id, rest. by rewrite Hf1, Hf. }
    destruct (IH (coord_step s1) rem') as [sched Hs];
      [|by apply coord_step_queue_inv|done|].
    { unfold weight in *. rewrite Hpc1, Hf1, Hf in Hw'. rewrite Hf in Hw. lia. }
    by exists (Worker id :: Coordinator :: sched).
  - destruct (coord_step_weight s rem) as (rem' & Hy' & Hw');
      [done..|].
    destruct (IH (coord_step s) rem') as [sched Hs];
      [lia|by apply coord_step_queue_inv|done|].
    by exists (Coordinator :: sched).
Qed.

(** ** A bound on the work of the coordinator *)

Lemma unready_polls_app (evs1 evs2 : list event) :
  unready_polls (evs1 ++ evs2) = unready_polls evs1 + unready_polls evs2.
Proof.
  induction evs1 as [|ev evs1 IH]; simpl; [done|].
  destruct ev as [| | | | |id []| | | |]; simpl; lia.
Qed.

Lemma coord_step_log_grows (s : state) :
  exists evs, log (coord_step s) = log s ++ evs.
Proof.
  unfold coord_step. destruct (pc s).
  all: try destruct (submit_next_chunk_spec (L44 (batch_i + 1)) s)
         as (c & f' & _ & ->).
  all: try destruct (submit_next_chunk_spec L59 s) as (c & f' & _ & ->).
  all: repeat case_match; simpl; eauto.
  all: exists []; by rewrite app_nil_r.
Qed.

(** Every statement of the coordinator decreases the weight, except a
    poll that finds the front not ready: that one adds 2 to the weight
    and one unready poll to the log. *)
Lemma coord_step_potential (s : state) (rem : list CHUNK) :
  queue_inv s -> yields (formatter s) rem ->
  is_terminal (pc s) = false ->
  exists rem',
    yields (formatter (coord_step s)) rem' /\
    1 + weight (length rem') (coord_step s) + 3 * unready_polls (log s) <=
      weight (length rem) s + 3 * unready_polls (log (coord_step s)).
Proof.
  intros Hq Hy Hnt.
  assert (pc s = L50 /\ ~ (exists r, front_ready r s) \/
          (pc s = L50 -> exists r, front_ready r s)) as [[H50 Hnr]|Hr].
  { destruct (pc s) eqn:Epc; try (right; by intros [=]).
    destruct Hq as [_ _ Hat]. unfold at_pc in Hat. rewrite Epc in Hat.
    destruct Hat as [_ Hne].
    destruct (futures s) as [|id rest] eqn:Hf; [done|].
    destruct (pool s !! id) as [[c|r]|] eqn:Hid.
    - left. split; [done|]. intros (r & id' & rest' & Hf' & Hid').
      rewrite Hf in Hf'. simplify_eq.
    - right. intros _. exists r, id, rest. by rewrite Hf.
    - left. split; [done|]. intros (r & id' & rest' & Hf' & Hid').
      rewrite Hf in Hf'. simplify_eq. }
  - exists rem. unfold coord_step, weight. rewrite H50.
    destruct Hq as [_ _ Hat]. unfold at_pc in Hat. rewrite H50 in Hat.
    destruct Hat as [_ Hne].
    destruct (futures s) as [|id rest] eqn:Hf; [done|].
    destruct (pool s !! id) as [[c|r]|] eqn:Hid.
    + cbn [goto futures pc formatter log pc_weight].
      rewrite Hf, unready_polls_app. simpl. split; [done|lia].
    + destruct Hnr. exists r, id, rest. by rewrite Hf.
    + cbn [goto futures pc formatter log pc_weight].
      rewrite Hf, unready_polls_app. simpl. split; [done|lia].
  - destruct (coord_step_weight s rem Hq Hy Hnt Hr) as (rem' & Hy' & Hw).
    exists rem'. split; [done|].
    destruct (coord_step_log_grows s) as [evs ->].
    rewrite unready_polls_app. lia.
Qed.

Lemma exec_potential (sched : list action) (s : state) (rem : list CHUNK) :
  queue_inv s -> yields (formatter s) rem ->
  is_terminal (pc (exec sched s)) = false ->
  exists rem',
    yields (formatter (exec sched s)) rem' /\
    coordinator_steps sched + weight (length rem') (exec sched s) +
      3 * unready_polls (log s) <=
      weight (length rem) s + 3 * unready_polls (log (exec sched s)).
Proof.
  revert s rem. induction sched as [|a sched IH]; intros s rem Hq Hy Hnt.
  - exists rem. simpl. split; [done|lia].
  - destruct a as [|id]; cbn [exec step coordinator_steps] in *.
    + destruct (is_terminal (pc s)) eqn:Ht.
      { rewrite terminal_coord_step in Hnt by done.
        destruct (terminal_exec sched s Ht) as (Hpc & _).
        rewrite Hpc in Hnt. congruence. }
      destruct (coord_step_potential s rem Hq Hy Ht) as (rem1 & Hy1 & Hw1).
      destruct (IH (coord_step s) rem1) as (rem' & Hy' & Hw');
        [by apply coord_step_queue_inv|done..|].
      exists rem'. split; [done|lia].
    + pose proof (worker_completes_only id s)
        as (Hpc & Hfm & Hf & _ & Hlog & _).
      destruct (IH (worker_completes id s) rem) as (rem' & Hy' & Hw');
        [eapply queue_inv_only; [apply worker_completes_only|done]
        |by rewrite Hfm|done|].
      exists rem'. split; [done|].
      unfold weight in *. rewrite Hpc, Hf, Hlog in Hw'. lia.
Qed.

(** The function is left once the coordinator has executed more than
    [32 * N + 13] statements, not counting three for every poll that
    found the front unfinished. *)
Lemma bounded_work (cs : list CHUNK) (sched : list action) (o : ostream)
    (f : F) :
  yields f cs ->
  let s := write_body_threads sched o f in
  32 * length cs + 13 + 3 * unready_polls (log s) < coordinator_steps sched ->
  is_terminal (pc s) = true.
Proof.
  intros Hy s Hlt. destruct (is_terminal (pc s)) eqn:Ht; [done|].
  destruct (exec_potential sched (initial o f) cs) as (rem' & _ & Hw);
    [apply queue_inv_initial|done..|].
  fold (write_body_threads sched o f) in Hw. fold s in Hw.
  unfold weight in Hw at 2. simpl in Hw. lia.
Qed.

(** * The window bound *)

Lemma outstanding_queue (s : state) :
  queue_inv s -> log_inv s ->
  outstanding s =
    match pc s with
    | L61 _ => (queue_length s + 1)%Z
    | _ => queue_length s
    end.
Proof.
  intros [_ Hlen Hpc] [_ _ Hw]. unfold outstanding, queue_length. rewrite Hw.
  unfold written_count, popped. unfold at_pc, popped in Hpc.
  destruct (pc s); lia.
Qed.

Lemma queue_length_bound (s : state) :
  queue_inv s ->
  (queue_length s <= window + 1)%Z /\
  ((window < queue_length s)%Z ->
   pc s = L59 \/ (exists chunk, pc s = L60 chunk) \/
   (exists e, pc s = Raised e /\ front_ready (Throws e) s)).
Proof.
  intros [_ _ Hpc]. unfold at_pc, full_or_drained in Hpc.
  assert (inflight_count thread_count <= window)%Z as Hiw
    by (unfold window; lia).
  destruct (pc s) eqn:Epc; (split; [intuition lia|]); intros Hgt;
    try (exfalso; intuition lia); eauto.
  destruct Hpc as [[_ Hfr]|[[Hle _] _]]; [eauto 10|lia].
Qed.

(** C9: the Pending Queue never holds more than 3 x worker_count + 1
    Result Handles, and it holds more than 3 x worker_count only inside
    a drain step, after the refill handle was pushed (line 55) and before
    the front handle is popped (line 60): at line 59, at line 60, or when
    the retrieval of line 59 threw and the function was left there. *)
Theorem queue_at_most_window_plus_one (sched : list action) (o : ostream)
    (f : F) :
  (0 <= thread_count <= max_thread_count)%Z ->
  let s := write_body_threads sched o f in
  (queue_length s <= 3 * thread_count + 1)%Z /\
  ((3 * thread_count < queue_length s)%Z ->
   pc s = L59 \/ (exists chunk, pc s = L60 chunk) \/
   (exists e, pc s = Raised e /\ front_ready (Throws e) s)).
Proof.
  intros Hr s. destruct (run_invariants sched o f) as (Hq & _ & _).
  rewrite <- (window_in_range Hr). by apply queue_length_bound.
Qed.

(** C3 (amended): at every point of a run the number of Work Items
    submitted but not yet written to the sink is at most
    3 x worker_count + 1; it is at most 3 x worker_count everywhere
    except inside a drain step between the refill of line 55 and the
    write of line 61. *)
Theorem outstanding_at_most_window_plus_one (sched : list action)
    (o : ostream) (f : F) :
  (0 <= thread_count <= max_thread_count)%Z ->
  let s := write_body_threads sched o f in
  (outstanding s <= 3 * thread_count + 1)%Z /\
  (refilled_unwritten (pc s) = false ->
   (outstanding s <= 3 * thread_count)%Z).
Proof.
  intros Hr s. destruct (run_invariants sched o f) as (Hq & Hl & _).
  fold s in Hq, Hl. rewrite <- (window_in_range Hr).
  rewrite (outstanding_queue s Hq Hl).
  destruct Hq as [_ _ Hpc]. unfold at_pc, full_or_drained in Hpc.
  assert (inflight_count thread_count <= window)%Z as Hiw
    by (unfold window; lia).
  destruct (pc s) eqn:Epc; simpl; (split; [intuition lia|]);
    try done; intros _; intuition lia.
Qed.

(** * The source is used as its contract demands *)

Lemma coord_step_next_chunk (s : state) (evs : list event) :
  log (coord_step s) = log s ++ evs -> In ev_next_chunk evs ->
  (exists b, pc s = L45 b) \/ pc s = L55.
Proof.
  unfold coord_step. destruct (pc s) eqn:Epc; eauto.
  all: repeat case_match; simpl; intros Hl Hin.
  all: try (apply app_inv_head in Hl; subst evs).
  all: try (rewrite <- (app_nil_r (log s)) in Hl at 1;
            apply app_inv_head in Hl; subst evs).
  all: simpl in Hin; intuition (eauto; discriminate).
Qed.

(** C8: in every run, every call of next_chunk comes immediately after a
    call of has_next that returned true, and the formatter still has a
    next chunk when next_chunk is called: next_chunk is never called on
    an exhausted source. *)
Theorem next_chunk_follows_has_next (sched : list action) (o : ostream)
    (f : F) :
  let s := write_body_threads sched o f in
  (forall pre post,
     log s = pre ++ ev_next_chunk :: post ->
     exists pre', pre = pre' ++ [ev_has_next true]) /\
  (forall evs,
     log (coord_step s) = log s ++ evs -> In ev_next_chunk evs ->
     has_next (formatter s) = true /\
     exists pre', log s = pre' ++ [ev_has_next true]).
Proof.
  intros s. destruct (run_invariants sched o f) as (_ & [Hlog Hnext _] & _).
  split; [done|]. intros evs Hl Hin. apply Hnext.
  by eapply coord_step_next_chunk.
Qed.

(** * Ordered output *)

Lemma tasks_returned (sub : list CHUNK) (tasks : list (shared_state CHUNK))
    (ss : list string) (k : nat) :
  Forall2 task_of sub tasks ->
  take k tasks = map (fun b => Ready (Returns b)) ss ->
  map call_chunk (take k sub) = map Returns ss.
Proof.
  intros Hall Htake. apply (Forall2_take _ _ _ k) in Hall.
  rewrite Htake in Hall. clear Htake. revert ss Hall.
  induction (take k sub) as [|c l IH]; intros ss Hall.
  - apply Forall2_nil_inv_l in Hall. by destruct ss.
  - destruct ss as [|b ss]; simpl in Hall; [by inversion Hall|].
    apply Forall2_cons_1 in Hall as [[Ht|Ht] Hall]; [done|].
    simpl. f_equal; [congruence|by apply IH].
Qed.

Lemma map_Returns_inj (ss ss' : list string) :
  map Returns ss = map Returns ss' -> ss = ss'.
Proof.
  revert ss'. induction ss as [|b ss IH]; intros [|b' ss'] H;
    simplify_eq/=; [done|]. f_equal. by apply IH.
Qed.

(** After a normal return every chunk was submitted, popped and handed
    to the sink, in the order of generation. *)
Lemma returned_all_written (cs : list CHUNK) (o : ostream) (s : state) :
  (0 < window)%Z ->
  queue_inv s -> sink_inv o s -> chunks_inv cs s -> pc s = Returned ->
  exists ss, map call_chunk cs = map Returns ss /\ os s = write_all ss o.
Proof.
  intros Hw [_ _ Hpc] (ss & Htake & Hos) (sub & rem & Hcs & Hall & Hy) Hret.
  unfold at_pc in Hpc. unfold written_count, popped in Htake.
  rewrite Hret in Hpc, Htake. destruct Hpc as [[_ Hfull] Hf].
  unfold queue_length in Hfull. rewrite Hf in Hfull, Htake. simpl in *.
  assert (has_next (formatter s) = false) as Hn
    by (destruct (has_next (formatter s));
        [specialize (Hfull eq_refl)|]; [lia|done]).
  rewrite (yields_no_next _ _ Hy Hn), app_nil_r in Hcs. subst sub.
  exists ss. split; [|done].
  rewrite Nat.sub_0_r in Htake.
  rewrite <- (tasks_returned _ _ _ _ Hall Htake).
  rewrite <- (Forall2_length _ _ _ Hall). by rewrite firstn_all.
Qed.

(** A chunk whose future holds an exception threw it. *)
Lemma task_threw (cs : list CHUNK) (s : state) (id : nat) (e : exception) :
  chunks_inv cs s -> pool s !! id = Some (Ready (Throws e)) ->
  exists c, cs !! id = Some c /\ call_chunk c = Throws e.
Proof.
  intros (sub & rem & -> & Hall & _) Hid.
  destruct (Forall2_lookup_r _ _ _ _ _ Hall Hid) as (c & Hc & [Ht|Ht]);
    [done|].
  exists c. split; [by apply lookup_app_l_Some|congruence].
Qed.

(** C1: for every formatter that generates a finite sequence of chunks
    and every schedule of the workers, a run that returns with the
    stream in a good state has appended to the sink exactly the bytes of
    all chunks, concatenated in the order of their generation; with no
    chunks the sink is left as it was; and when every chunk returns its
    bytes and the device does not fail, every run can be continued to
    such a return, whatever the workers did so far. *)
Theorem chunks_written_in_submission_order (cs : list CHUNK)
    (sched : list action) (o : ostream) (f : F) :
  (1 <= thread_count <= max_thread_count)%Z ->
  yields f cs ->
  let s := write_body_threads sched o f in
  (pc s = Returned -> badbit (os s) = false ->
   exists ss,
     map call_chunk cs = map Returns ss /\
     written (os s) = written o +:+ concat_bytes ss) /\
  (cs = [] -> os s = o) /\
  (forall ss,
     map call_chunk cs = map Returns ss ->
     room o = None -> badbit o = false ->
     exists sched',
       let s' := write_body_threads (sched ++ sched') o f in
       pc s' = Returned /\
       written (os s') = written o +:+ concat_bytes ss).
Proof.
  intros Hr Hy s.
  assert (0 < window)%Z as Hw by (rewrite window_in_range; lia).
  destruct (run_invariants sched o f) as (Hq & _ & Hs).
  pose proof (run_chunks_inv cs sched o f Hy) as Hc. fold s in Hq, Hs, Hc.
  split; [|split].
  - intros Hret Hgood.
    destruct (returned_all_written cs o s) as (ss & Hss & Hos); [done..|].
    exists ss. split; [done|]. rewrite Hos in *. by apply write_all_good.
  - intros ->. destruct Hs as (ss & Htake & ->).
    destruct Hc as (sub & rem & Hnil & Hall & _).
    symmetry in Hnil. apply app_eq_nil in Hnil as [-> ->].
    apply Forall2_nil_inv_l in Hall. rewrite Hall in Htake.
    rewrite take_nil in Htake. by destruct ss.
  - intros ss Hss Hroom Hgood.
    destruct Hc as (sub & rem & Hcs & Hall & Hyr).
    destruct (progress (S (weight (length rem) s)) s rem) as [sched' Ht];
      [lia|done..|].
    exists sched'. unfold write_body_threads. rewrite exec_app.
    change (exec sched (initial o f)) with s.
    destruct (run_invariants (sched ++ sched') o f) as (Hq' & _ & Hs').
    pose proof (run_chunks_inv cs (sched ++ sched') o f Hy) as Hc'.
    unfold write_body_threads in Hq', Hs', Hc'. rewrite exec_app in *.
    change (exec sched (initial o f)) with s in *.
    set (s' := exec sched' s) in *.
    assert (badbit (os s') = false) as Hgood'.
    { destruct Hs' as (ss' & _ & ->). by apply write_all_unlimited. }
    destruct (pc s') eqn:Epc; try done.
    + destruct (returned_all_written cs o s') as (ss' & Hss' & Hos);
        [done..|].
      rewrite Hss in Hss'. apply map_Returns_inj in Hss' as <-.
      split; [done|]. rewrite Hos in *. by apply write_all_good.
    + exfalso. pose proof Hq' as [_ _ Hpc]. unfold at_pc in Hpc.
      rewrite Epc in Hpc.
      destruct Hpc as [[_ (id & rest & _ & Hid)]|(_ & _ & Hbad & _)];
        [|congruence].
      destruct (task_threw cs s' id e Hc' Hid) as (c & Hc1 & Hc2).
      assert (map call_chunk cs !! id = Some (Throws e)) as Hlk
        by by rewrite list_lookup_fmap, Hc1; simpl; rewrite Hc2.
      rewrite Hss, list_lookup_fmap in Hlk.
      destruct (ss !! id); simplify_eq/=.
Qed.

(** * Failures *)

Lemma exception_is_final (sched : list action) (s : state) (e : exception) :
  pc s = Raised e ->
  let s' := exec sched s in
  pc s' = Raised e /\ os s' = os s /\ formatter s' = formatter s /\
  length (pool s') = length (pool s) /\ log s' = log s.
Proof.
  intros Hpc s'.
  destruct (terminal_exec sched s) as (H1 & H2 & _ & H3 & H4 & H5 & _);
    [by rewrite Hpc|].
  fold s' in H1, H2, H3, H4, H5. rewrite H1, H2, H3, H4, H5. done.
Qed.

Lemma ostream_write_mask (o : ostream) (c : string) :
  throws (fst (ostream_write o c)) = throws o.
Proof.
  unfold ostream_write. destruct (badbit o); [done|].
  destruct (room o) as [n|]; [|done].
  by destruct (String.length c <=? n)%nat.
Qed.

Lemma write_all_mask (ss : list string) (o : ostream) :
  throws (write_all ss o) = throws o.
Proof.
  revert o. induction ss as [|c ss IH]; intros o; [done|].
  change (write_all (c :: ss) o) with (write_all ss (fst (ostream_write o c))).
  by rewrite IH, ostream_write_mask.
Qed.

(** When chunk [k] is the first to throw, an exception raised at line 59
    is the one of chunk [k], and the chunks before it were written. *)
Lemma first_failure_is_raised (cs : list CHUNK) (o : ostream) (s : state)
    (k : nat) (c : CHUNK) (e e' : exception) (ss : list string) :
  queue_inv s -> sink_inv o s -> chunks_inv cs s ->
  cs !! k = Some c -> call_chunk c = Throws e ->
  map call_chunk (take k cs) = map Returns ss ->
  pc s = Raised e' -> front_ready (Throws e') s ->
  e' = e /\ os s = write_all ss o.
Proof.
  intros [Hseq _ _] (ss' & Htake & Hos) Hc Hk Hthrow Hbefore Hpc
    (id & rest & Hf & Hid).
  assert (written_count s = id) as Hwc.
  { unfold written_count. rewrite Hpc. rewrite Hf in Hseq. simpl in Hseq.
    by injection Hseq as <- _. }
  rewrite Hwc in Htake.
  destruct (task_threw cs s id e' Hc Hid) as (c' & Hc1 & Hc2).
  destruct Hc as (sub & rem & -> & Hall & _).
  assert (id < length sub) as Hlt.
  { rewrite (Forall2_length _ _ _ Hall). by eapply lookup_lt_Some. }
  pose proof (tasks_returned _ _ _ _ Hall Htake) as Hret.
  destruct (Nat.lt_trichotomy id k) as [Hlt'|[->|Hgt]].
  - (* an earlier chunk threw *)
    exfalso.
    assert (map call_chunk (take k (sub ++ rem)) !! id = Some (Throws e'))
      as Hlk by by rewrite list_lookup_fmap, lookup_take_lt, Hc1; simpl;
                   rewrite ?Hc2.
    rewrite Hbefore, list_lookup_fmap in Hlk.
    destruct (ss !! id); simplify_eq/=.
  - rewrite Hk in Hc1. simplify_eq. split; [congruence|].
    rewrite take_app_le in Hbefore by lia. rewrite Hbefore in Hret.
    apply map_Returns_inj in Hret as ->. done.
  - (* chunk [k] was retrieved without an exception *)
    exfalso.
    assert (map call_chunk (take id sub) !! k = Some (Throws e)) as Hlk.
    { rewrite list_lookup_fmap, lookup_take_lt by done.
      rewrite lookup_app_l in Hk by lia. rewrite Hk. simpl. by rewrite Hthrow. }
    rewrite Hret, list_lookup_fmap in Hlk.
    destruct (ss' !! k); simplify_eq/=.
Qed.

(** C2 (amended): if the retrieval of the result of chunk id + 1 (the
    future [id] at the front of the queue, at line 59) produces the
    exception that the worker stored, then the function is left by that
    exception; the sink has received exactly the appends of the chunks
    before it, all of which returned, in order, and no append of that
    chunk or a later one; it holds exactly the bytes of the chunks
    before it when the stream is still good (no append failed); and
    from then on, whatever else happens, nothing is written, no chunk is
    requested or submitted and no further call is made.  Moreover, when
    chunk k + 1 is the first whose computation throws and the stream does
    not throw, every run can be continued to that retrieval. *)
Theorem worker_failure_aborts (cs : list CHUNK) (sched sched' : list action)
    (o : ostream) (f : F) :
  yields f cs ->
  let s := write_body_threads sched o f in
  (forall id rest e,
     pc s = L59 -> futures s = id :: rest ->
     pool s !! id = Some (Ready (Throws e)) ->
     let s' := coord_step s in
     let s'' := exec sched' s' in
     pc s' = Raised e /\
     (exists c ss,
        cs !! id = Some c /\ call_chunk c = Throws e /\
        map call_chunk (take id cs) = map Returns ss /\
        os s' = write_all ss o /\
        (badbit (os s') = false ->
         written (os s') = written o +:+ concat_bytes ss)) /\
     (pc s'' = Raised e /\ os s'' = os s' /\ formatter s'' = formatter s' /\
      length (pool s'') = length (pool s') /\ log s'' = log s')) /\
  (forall k c e ss,
     (1 <= thread_count <= max_thread_count)%Z ->
     cs !! k = Some c -> call_chunk c = Throws e ->
     map call_chunk (take k cs) = map Returns ss ->
     throws o = false ->
     exists sched'',
       let t := write_body_threads (sched ++ sched'') o f in
       pc t = Raised e /\ os t = write_all ss o).
Proof.
  intros Hy s.
  destruct (run_invariants sched o f) as (Hq & _ & Hs).
  pose proof (run_chunks_inv cs sched o f Hy) as Hc. fold s in Hq, Hs, Hc.
  split.
  - intros id rest e Hpc Hf Hid s' s''.
    assert (s' = goto (Raised e) [ev_get id] s) as Hs'
      by (unfold s', coord_step; by rewrite Hpc, Hf, Hid).
    assert (pc s' = Raised e) as Hpc' by by rewrite Hs'.
    split; [done|]. split; [|by apply exception_is_final].
    destruct (task_threw cs s id e Hc Hid) as (c & Hc1 & Hc2).
    destruct Hs as (ss & Htake & Hos). exists c, ss.
    do 2 (split; [done|]).
    assert (written_count s = id) as Hwc.
    { unfold written_count. rewrite Hpc. destruct Hq as [Hseq _ _].
      rewrite Hf in Hseq. simpl in Hseq. by injection Hseq as <- _. }
    rewrite Hwc in Htake.
    destruct Hc as (sub & rem & -> & Hall & _).
    assert (id < length sub) as Hlt.
    { rewrite (Forall2_length _ _ _ Hall). by eapply lookup_lt_Some. }
    rewrite take_app_le by lia.
    split; [by eapply tasks_returned|].
    rewrite Hs'. simpl. split; [done|]. rewrite Hos. apply write_all_good.
  - intros k c e ss Hr Hk Hthrow Hbefore Hmask.
    assert (0 < window)%Z as Hw by (rewrite window_in_range; lia).
    destruct Hc as (sub & rem & Hcs & Hall & Hyr).
    destruct (progress (S (weight (length rem) s)) s rem) as [sched'' Ht];
      [lia|done..|].
    exists sched''. unfold write_body_threads. rewrite exec_app.
    change (exec sched (initial o f)) with s.
    destruct (run_invariants (sched ++ sched'') o f) as (Hq' & _ & Hs').
    pose proof (run_chunks_inv cs (sched ++ sched'') o f Hy) as Hc'.
    unfold write_body_threads in Hq', Hs', Hc'. rewrite exec_app in *.
    change (exec sched (initial o f)) with s in *.
    set (t := exec sched'' s) in *.
    destruct (pc t) eqn:Epc; try done.
    + exfalso.
      destruct (returned_all_written cs o t) as (ss' & Hss' & _); [done..|].
      assert (map call_chunk cs !! k = Some (Throws e)) as Hlk
        by by rewrite list_lookup_fmap, Hk; simpl; rewrite Hthrow.
      rewrite Hss', list_lookup_fmap in Hlk.
      destruct (ss' !! k); simplify_eq/=.
    + pose proof Hq' as [_ _ Hat]. unfold at_pc in Hat. rewrite Epc in Hat.
      destruct Hat as [[_ Hfr]|(_ & _ & _ & Hmask')].
      * destruct (first_failure_is_raised cs o t k c e e0 ss) as [-> Hos];
          done.
      * exfalso. destruct Hs' as (ss' & _ & Hos). rewrite Hos in Hmask'.
        rewrite write_all_mask in Hmask'. congruence.
Qed.



(** * One drain step, statement by statement *)

Lemma same_data_trans (s1 s2 s3 : state) :
  same_data s1 s2 -> same_data s2 s3 -> same_data s1 s3.
Proof.
  unfold same_data.
  intros (H1 & H2 & H3 & H4 & Hr) (H1' & H2' & H3' & H4' & Hr').
  rewrite H1', H2', H3', H4'. naive_solver.
Qed.

Lemma workers_same_data (ids : list nat) (s : state) :
  pc (exec (workers ids) s) = pc s /\
  log (exec (workers ids) s) = log s /\
  same_data s (exec (workers ids) s).
Proof.
  destruct (workers_only ids s) as (H1 & H2 & H3 & H4 & H5 & H6 & H7 & _).
  unfold same_data. naive_solver.
Qed.

Lemma goto_same_data (l : label) (evs : list event) (s : state) :
  same_data s (goto l evs s).
Proof. unfold same_data. naive_solver. Qed.

(** A statement that only moves on: after the workers [ids] ran, the
    coordinator at [pc s] goes to [l] recording [evs]. *)
Lemma then_coord_goto (ids : list nat) (s : state) (l : label)
    (evs : list event) :
  (forall s', pc s' = pc s -> same_data s s' ->
              coord_step s' = goto l evs s') ->
  pc (then_coord ids s) = l /\
  log (then_coord ids s) = log s ++ evs /\
  same_data s (then_coord ids s).
Proof.
  intros Hstep. unfold then_coord.
  destruct (workers_same_data ids s) as (Hpc & Hlog & Hsame).
  rewrite (Hstep _ Hpc Hsame). simpl. rewrite Hlog.
  split; [done|]. split; [done|].
  eapply same_data_trans; [done|]. apply goto_same_data.
Qed.

Lemma at_L64 (ids : list nat) (s : state) :
  pc s = L64 ->
  pc (then_coord ids s) = L49 /\
  log (then_coord ids s) = log s ++ [ev_yield] /\
  same_data s (then_coord ids s).
Proof.
  intros Hpc. apply then_coord_goto. intros s' Hpc' _.
  unfold coord_step. by rewrite Hpc', Hpc.
Qed.

Lemma at_L49_nonempty (ids : list nat) (s : state) (id : nat)
    (rest : list nat) :
  pc s = L49 -> futures s = id :: rest ->
  pc (then_coord ids s) = L50 /\
  log (then_coord ids s) = log s ++ [ev_empty false] /\
  same_data s (then_coord ids s).
Proof.
  intros Hpc Hf. apply then_coord_goto. intros s' Hpc' (_ & Hf' & _).
  unfold coord_step. by rewrite Hpc', Hpc, Hf', Hf.
Qed.

Lemma at_L50_ready (ids : list nat) (s : state) (id : nat)
    (rest : list nat) (r : result) :
  pc s = L50 -> futures s = id :: rest -> pool s !! id = Some (Ready r) ->
  pc (then_coord ids s) = L54 /\
  log (then_coord ids s) = log s ++ [ev_is_ready id true] /\
  same_data s (then_coord ids s).
Proof.
  intros Hpc Hf Hid. apply then_coord_goto.
  intros s' Hpc' (_ & Hf' & _ & _ & Hr).
  unfold coord_step. by rewrite Hpc', Hpc, Hf', Hf, (Hr _ _ Hid).
Qed.

Lemma at_L54_more (ids : list nat) (s : state) :
  pc s = L54 -> has_next (formatter s) = true ->
  pc (then_coord ids s) = L55 /\
  log (then_coord ids s) = log s ++ [ev_has_next true] /\
  same_data s (then_coord ids s).
Proof.
  intros Hpc Hn. apply then_coord_goto. intros s' Hpc' (Hfm & _).
  unfold coord_step. by rewrite Hpc', Hpc, Hfm, Hn.
Qed.

Lemma at_L59_returns (ids : list nat) (s : state) (id : nat)
    (rest : list nat) (chunk : string) :
  pc s = L59 -> futures s = id :: rest ->
  pool s !! id = Some (Ready (Returns chunk)) ->
  pc (then_coord ids s) = L60 chunk /\
  log (then_coord ids s) = log s ++ [ev_get id] /\
  same_data s (then_coord ids s).
Proof.
  intros Hpc Hf Hid. apply then_coord_goto.
  intros s' Hpc' (_ & Hf' & _ & _ & Hr).
  unfold coord_step. by rewrite Hpc', Hpc, Hf', Hf, (Hr _ _ Hid).
Qed.

Lemma at_L55 (ids : list nat) (s : state) :
  pc s = L55 ->
  exists c f',
    next_chunk (formatter s) options = (c, f') /\
    pc (then_coord ids s) = L59 /\
    log (then_coord ids s) =
      log s ++ [ev_next_chunk; ev_submit (length (pool s));
                ev_push (length (pool s))] /\
    formatter (then_coord ids s) = f' /\
    futures (then_coord ids s) = futures s ++ [length (pool s)] /\
    os (then_coord ids s) = os s /\
    pool (then_coord ids s) !! length (pool s) = Some (Pending c) /\
    length (pool (then_coord ids s)) = S (length (pool s)) /\
    (forall i r, pool s !! i = Some (Ready r) ->
                 pool (then_coord ids s) !! i = Some (Ready r)).
Proof.
  intros Hpc. unfold then_coord.
  destruct (workers_same_data ids s)
    as (Hpc' & Hlog & Hfm & Hf & Hos & Hlen & Hr).
  set (s' := exec (workers ids) s) in *.
  unfold coord_step. rewrite Hpc', Hpc.
  destruct (submit_next_chunk_spec L59 s') as (c & f' & Hn & ->).
  exists c, f'. simpl. rewrite <- Hfm, Hlog, Hf, Hos, <- Hlen.
  repeat split; try done.
  - by rewrite list_lookup_middle.
  - rewrite length_app. simpl. lia.
  - intros i r Hi. apply lookup_app_l_Some. by apply Hr.
Qed.

Lemma at_L60 (ids : list nat) (s : state) (chunk : string) (id : nat)
    (rest : list nat) :
  pc s = L60 chunk -> futures s = id :: rest ->
  let s' := then_coord ids s in
  pc s' = L61 chunk /\ log s' = log s ++ [ev_pop id] /\
  formatter s' = formatter s /\ futures s' = rest /\ os s' = os s.
Proof.
  intros Hpc Hf. unfold then_coord.
  destruct (workers_same_data ids s)
    as (Hpc' & Hlog & Hfm & Hf' & Hos & Hlen & Hr).
  unfold coord_step. rewrite Hpc', Hpc, Hf', Hf. simpl.
  by rewrite Hlog, Hfm, Hos.
Qed.

Lemma at_L61 (ids : list nat) (s : state) (chunk : string) :
  pc s = L61 chunk ->
  let s' := then_coord ids s in
  log s' = log s ++ [ev_write chunk] /\
  formatter s' = formatter s /\ futures s' = futures s /\
  os s' = fst (ostream_write (os s) chunk).
Proof.
  intros Hpc. unfold then_coord.
  destruct (workers_same_data ids s)
    as (Hpc' & Hlog & Hfm & Hf' & Hos & Hlen & Hr).
  unfold coord_step. rewrite Hpc', Hpc, Hos.
  destruct (ostream_write (os s) chunk) as [os' thrown]. simpl.
  by rewrite Hlog, Hfm, Hf'.
Qed.

Lemma at_L50_polls_front (ids : list nat) (s : state) (id : nat)
    (rest : list nat) :
  pc s = L50 -> futures s = id :: rest ->
  exists b, log (then_coord ids s) = log s ++ [ev_is_ready id b].
Proof.
  intros Hpc Hf. unfold then_coord.
  destruct (workers_same_data ids s) as (Hpc' & Hlog & _ & Hf' & _).
  unfold coord_step. rewrite Hpc', Hpc, Hf', Hf.
  destruct (pool (exec (workers ids) s) !! id) as [[c|r]|]; simpl;
    rewrite Hlog; eauto.
Qed.

Lemma coord_step_inspects_front (s : state) (evs : list event) (id : nat) :
  log (coord_step s) = log s ++ evs ->
  (exists b, In (ev_is_ready id b) evs) \/ In (ev_get id) evs ->
  exists rest, futures s = id :: rest.
Proof.
  unfold coord_step. destruct (pc s) eqn:Epc.
  all: try destruct (submit_next_chunk_spec (L44 (batch_i + 1)) s)
         as (c & f' & _ & ->).
  all: try destruct (submit_next_chunk_spec L59 s) as (c & f' & _ & ->).
  all: repeat case_match; simpl; intros Hl Hin.
  all: try (apply app_inv_head in Hl; subst evs).
  all: try (rewrite <- (app_nil_r (log s)) in Hl at 1;
            apply app_inv_head in Hl; subst evs).
  all: simpl in Hin; destruct Hin as [[b Hin]|Hin];
         intuition (simplify_eq; eauto).
Qed.

(** C7: the coordinator inspects no future but the one at the front of
    the queue (with is_ready at line 50 and with get at line 59); and
    when the front is not ready at line 50, then, whatever the workers
    do meanwhile, the coordinator yields (line 64), tests the queue
    (line 49) and is_ready is called on the same front again, having
    requested and submitted no chunk, popped nothing and written
    nothing: its only calls are is_ready, yield and empty. *)
Theorem unready_front_is_polled_again (sched : list action) (o : ostream)
    (f : F) (id : nat) (rest : list nat) (c : CHUNK) (w1 w2 w3 : list nat) :
  let s := write_body_threads sched o f in
  pc s = L50 -> futures s = id :: rest -> pool s !! id = Some (Pending c) ->
  let s1 := coord_step s in
  let s2 := then_coord w1 s1 in
  let s3 := then_coord w2 s2 in
  let s4 := then_coord w3 s3 in
  (pc s1 = L64 /\ pc s2 = L49 /\ pc s3 = L50) /\
  (formatter s3 = formatter s /\ futures s3 = futures s /\ os s3 = os s /\
   length (pool s3) = length (pool s)) /\
  log s3 = log s ++ [ev_is_ready id false; ev_yield; ev_empty false] /\
  (exists b, log s4 = log s3 ++ [ev_is_ready id b]) /\
  (forall (s0 : state) evs id',
     log (coord_step s0) = log s0 ++ evs ->
     (exists b, In (ev_is_ready id' b) evs) \/ In (ev_get id') evs ->
     exists rest', futures s0 = id' :: rest').
Proof.
  intros s Hpc Hf Hid s1 s2 s3 s4.
  assert (s1 = goto L64 [ev_is_ready id false] s) as Hs1
    by (unfold s1, coord_step; by rewrite Hpc, Hf, Hid).
  assert (pc s1 = L64) as Hpc1 by by rewrite Hs1.
  destruct (at_L64 w1 s1 Hpc1)
    as (Hpc2 & Hlog2 & Hfm2 & Hf2 & Hos2 & Hlen2 & _).
  fold s2 in Hpc2, Hlog2, Hfm2, Hf2, Hos2, Hlen2.
  assert (futures s2 = id :: rest) as Hf2' by by rewrite Hf2, Hs1.
  destruct (at_L49_nonempty w2 s2 id rest Hpc2 Hf2')
    as (Hpc3 & Hlog3 & Hfm3 & Hf3 & Hos3 & Hlen3 & _).
  fold s3 in Hpc3, Hlog3, Hfm3, Hf3, Hos3, Hlen3.
  assert (futures s3 = id :: rest) as Hf3' by by rewrite Hf3.
  split; [done|]. split.
  { rewrite Hfm3, Hfm2, Hf3, Hf2, Hos3, Hos2, Hlen3, Hlen2, Hs1. done. }
  split.
  { rewrite Hlog3, Hlog2, Hs1. simpl. by rewrite <- !app_assoc. }
  split; [by eapply at_L50_polls_front|].
  intros s0 evs id'. apply coord_step_inspects_front.
Qed.

(** C6: in a drain step that finds the front ready (line 50) while the
    formatter has another chunk (line 54), the coordinator requests that
    chunk, submits it and pushes its future to the back of the queue
    (line 55) before it retrieves (line 59), pops (line 60) and writes
    (line 61) the front; the queue, full before the step, holds one
    future more in between and is full again after the step. *)
Theorem refill_precedes_pop (sched : list action) (o : ostream) (f : F)
    (id : nat) (rest : list nat) (r : result) (w1 w2 w3 w4 w5 : list nat) :
  let s := write_body_threads sched o f in
  pc s = L50 -> futures s = id :: rest -> pool s !! id = Some (Ready r) ->
  has_next (formatter s) = true ->
  let n := length (pool s) in
  let s3 := then_coord w2 (then_coord w1 (coord_step s)) in
  let s6 := then_coord w5 (then_coord w4 (then_coord w3 s3)) in
  exists c f',
    next_chunk (formatter s) options = (c, f') /\
    (pc s3 = L59 /\ formatter s3 = f' /\ os s3 = os s /\
     futures s3 = id :: rest ++ [n] /\
     pool s3 !! n = Some (Pending c) /\
     log s3 = log s ++ [ev_is_ready id true; ev_has_next true;
                        ev_next_chunk; ev_submit n; ev_push n]) /\
    (forall chunk, r = Returns chunk ->
       formatter s6 = f' /\ futures s6 = rest ++ [n] /\
       os s6 = fst (ostream_write (os s) chunk) /\
       log s6 = log s3 ++ [ev_get id; ev_pop id; ev_write chunk]) /\
    (queue_length s = window /\ queue_length s3 = (window + 1)%Z /\
     (forall chunk, r = Returns chunk -> queue_length s6 = window)).
Proof.
  intros s Hpc Hf Hid Hn n s3 s6.
  destruct (run_invariants sched o f) as ([_ _ Hat] & _ & _). fold s in Hat.
  unfold at_pc in Hat. rewrite Hpc in Hat. destruct Hat as [[_ Hfull] _].
  specialize (Hfull Hn). unfold queue_length in *. rewrite Hf in Hfull.
  destruct (at_L50_ready [] s id rest r Hpc Hf Hid)
    as (Hpc1 & Hlog1 & Hfm1 & Hf1 & Hos1 & Hlen1 & Hr1).
  change (then_coord [] s) with (coord_step s) in *.
  set (s1 := coord_step s) in *.
  destruct (at_L54_more w1 s1 Hpc1)
    as (Hpc2 & Hlog2 & Hfm2 & Hf2 & Hos2 & Hlen2 & Hr2);
    [by rewrite Hfm1|].
  set (s2 := then_coord w1 s1) in *.
  destruct (at_L55 w2 s2 Hpc2)
    as (c & f' & Hnc & Hpc3 & Hlog3 & Hfm3 & Hf3 & Hos3 & Hnew & Hlen3 & Hr3).
  fold s3 in Hpc3, Hlog3, Hfm3, Hf3, Hos3, Hnew, Hlen3, Hr3.
  rewrite Hfm2, Hfm1 in Hnc. rewrite Hlen2, Hlen1 in Hlog3, Hf3, Hnew, Hlen3.
  fold n in Hlog3, Hf3, Hnew, Hlen3.
  rewrite Hf2, Hf1, Hf in Hf3. simpl in Hf3.
  rewrite Hos2, Hos1 in Hos3.
  rewrite Hlog2, Hlog1, <- !app_assoc in Hlog3. simpl in Hlog3.
  exists c, f'. split; [done|]. split; [done|].
  assert (forall chunk, r = Returns chunk ->
            formatter s6 = f' /\ futures s6 = rest ++ [n] /\
            os s6 = fst (ostream_write (os s) chunk) /\
            log s6 = log s3 ++ [ev_get id; ev_pop id; ev_write chunk])
    as Htail.
  { intros chunk ->.
    destruct (at_L59_returns w3 s3 id (rest ++ [n]) chunk Hpc3 Hf3)
      as (Hpc4 & Hlog4 & Hfm4 & Hf4 & Hos4 & _); [eauto|].
    set (s4 := then_coord w3 s3) in *.
    rewrite Hf3 in Hf4.
    destruct (at_L60 w4 s4 chunk id (rest ++ [n]) Hpc4 Hf4)
      as (Hpc5 & Hlog5 & Hfm5 & Hf5 & Hos5).
    set (s5 := then_coord w4 s4) in *.
    destruct (at_L61 w5 s5 chunk Hpc5) as (Hlog6 & Hfm6 & Hf6 & Hos6).
    fold s6 in Hlog6, Hfm6, Hf6, Hos6.
    rewrite Hfm6, Hfm5, Hfm4, Hf6, Hf5, Hos6, Hos5, Hos4, Hos3.
    rewrite Hlog6, Hlog5, Hlog4, <- !app_assoc. done. }
  split; [done|]. simpl in Hfull. split; [rewrite Hf; simpl; lia|]. split.
  - rewrite Hf3. simpl. rewrite length_app. simpl. lia.
  - intros chunk Hchunk. destruct (Htail chunk Hchunk) as (_ & -> & _).
    rewrite length_app. simpl. lia.
Qed.

(** * The window and progress *)

Lemma work_left_is_outstanding (s : state) :
  (0 < window)%Z -> queue_inv s -> has_next (formatter s) = true ->
  futures s <> [] \/ pc s = L44 0 \/ pc s = L45 0.
Proof.
  intros Hw [_ _ Hpc] Hn.
  assert (forall extra, (0 <= extra)%Z -> full_or_drained extra s ->
            futures s <> []) as Hfull.
  { intros extra Hex [_ Hf]. specialize (Hf Hn). unfold queue_length in Hf.
    destruct (futures s); [simpl in Hf; lia|done]. }
  unfold at_pc in Hpc. destruct (pc s) eqn:Epc.
  1,2: destruct (decide (batch_i = 0%Z)) as [->|Hne]; [by auto|]; left;
       unfold queue_length in Hpc;
       destruct (futures s); [simpl in Hpc; lia|done].
  all: left; try (eapply (Hfull 0%Z); [lia|naive_solver]).
  all: try (eapply (Hfull 1%Z); [lia|naive_solver]).
  destruct Hpc as [[? _]|[? _]]; [by eapply (Hfull 1%Z)|by eapply (Hfull 0%Z)].
Qed.

Lemma can_finish (cs : list CHUNK) (sched : list action) (o : ostream)
    (f : F) :
  (0 < window)%Z -> yields f cs ->
  exists sched',
    let s' := write_body_threads (sched ++ sched') o f in
    is_terminal (pc s') = true /\
    (pc s' = Returned ->
     has_next (formatter s') = false /\ futures s' = [] /\
     length (pool s') = length cs).
Proof.
  intros Hw Hy. set (s := write_body_threads sched o f).
  destruct (run_invariants sched o f) as (Hq & _ & _).
  destruct (run_chunks_inv cs sched o f Hy) as (sub & rem & Hcs & Hall & Hyr).
  fold s in Hq, Hall, Hyr.
  destruct (progress (S (weight (length rem) s)) s rem) as [sched' Ht];
    [lia|done..|].
  exists sched'. simpl. unfold write_body_threads. rewrite exec_app.
  change (exec sched (initial o f)) with s. split; [done|]. intros Hret.
  destruct (run_invariants (sched ++ sched') o f) as (Hq' & _ & _).
  destruct (run_chunks_inv cs (sched ++ sched') o f Hy)
    as (sub' & rem' & Hcs' & Hall' & Hyr').
  unfold write_body_threads in Hq', Hall', Hyr'. rewrite exec_app in *.
  change (exec sched (initial o f)) with s in *.
  set (s' := exec sched' s) in *.
  pose proof Hq' as [_ _ Hpc]. unfold at_pc in Hpc. rewrite Hret in Hpc.
  destruct Hpc as [[_ Hfull] Hf]. unfold queue_length in Hfull.
  rewrite Hf in Hfull. simpl in Hfull.
  assert (has_next (formatter s') = false) as Hn
    by (destruct (has_next (formatter s'));
        [specialize (Hfull eq_refl)|]; [lia|done]).
  do 2 (split; [done|]).
  rewrite (yields_no_next _ _ Hyr' Hn), app_nil_r in Hcs'. subst sub'.
  symmetry. by eapply Forall2_length.
Qed.

Lemma idle_after_step (k : nat) (o : ostream) (f : F) (a : action)
    (s : state) :
  (inflight_count thread_count <= 0)%Z ->
  idle_after k o f s ->
  idle_after (k + coordinator_steps [a]) o f (step a s).
Proof.
  intros Hw (Hp & Hf & Ho & Hfm & Hpc & Hlog). destruct a as [|id]; simpl.
  - rewrite Nat.add_1_r. unfold idle_after, coord_step. rewrite Hpc.
    destruct k as [|[|k]].
    + destruct (Z.ltb_spec 0 (inflight_count thread_count)); [lia|].
      simpl. by rewrite Hlog.
    + rewrite Hf. simpl. by rewrite Hlog.
    + done.
  - rewrite Nat.add_0_r. unfold worker_completes. rewrite Hp. done.
Qed.

Lemma idle_after_exec (k : nat) (o : ostream) (f : F) (sched : list action)
    (s : state) :
  (inflight_count thread_count <= 0)%Z ->
  idle_after k o f s ->
  idle_after (k + coordinator_steps sched) o f (exec sched s).
Proof.
  intros Hw. revert k s. induction sched as [|a sched IH]; intros k s Hk.
  - simpl. by rewrite Nat.add_0_r.
  - simpl exec. apply (idle_after_step k o f a s Hw) in Hk.
    apply IH in Hk. destruct a; simpl in *;
      by rewrite ?Nat.add_1_r, ?Nat.add_0_r, ?Nat.add_succ_r in *.
Qed.

(** * Further properties of the function *)

(** ** Calls on the queue and on futures are well defined *)

(** X2: [front()] and [pop()] are only ever applied to a queue that is
    not empty, the future at the front belongs to a submitted task, and
    [get()] is only called on a future that is ready, so it does not
    block; the local [chunk] of line 60 is what that future holds. *)
Theorem queue_calls_are_defined (sched : list action) (o : ostream) (f : F) :
  let s := write_body_threads sched o f in
  (pc s = L50 \/ pc s = L59 \/ (exists chunk, pc s = L60 chunk) ->
   exists id rest, futures s = id :: rest /\ id < length (pool s)) /\
  (pc s = L59 -> exists r, front_ready r s) /\
  (forall chunk, pc s = L60 chunk -> front_ready (Returns chunk) s).
Proof.
  intros s. destruct (run_invariants sched o f) as (Hq & _ & _).
  fold s in Hq. pose proof Hq as [_ _ Hat]. unfold at_pc in Hat.
  split; [|split].
  - intros Hpc.
    assert (futures s <> []) as Hne.
    { destruct Hpc as [Hpc|[Hpc|[chunk Hpc]]]; rewrite Hpc in Hat.
      - by destruct Hat.
      - destruct Hat as (_ & r & id & rest & Hf & _). by rewrite Hf.
      - destruct Hat as (_ & id & rest & Hf & _). by rewrite Hf. }
    destruct (futures s) as [|id rest] eqn:Hf; [done|].
    exists id, rest. split; [done|]. by eapply front_in_pool.
  - intros Hpc. rewrite Hpc in Hat. by destruct Hat.
  - intros chunk Hpc. rewrite Hpc in Hat. by destruct Hat.
Qed.

(** ** The sink at every point of a run *)

(** X4: at every point of every run, the sink has received exactly the
    writes of the first k chunks, in the order of generation, where k is
    the number of write calls made so far; these chunks all returned, and
    no more chunks were submitted than the formatter generates. *)
Theorem sink_holds_a_prefix (cs : list CHUNK) (sched : list action)
    (o : ostream) (f : F) :
  yields f cs ->
  let s := write_body_threads sched o f in
  let k := count_writes (log s) in
  k <= length (pool s) <= length cs /\
  exists ss,
    map call_chunk (take k cs) = map Returns ss /\
    os s = write_all ss o /\
    (badbit (os s) = false ->
     written (os s) = written o +:+ concat_bytes ss).
Proof.
  intros Hy s k.
  destruct (run_invariants sched o f) as (Hq & [_ _ Hw] & (ss & Htake & Hos)).
  destruct (run_chunks_inv cs sched o f Hy) as (sub & rem & -> & Hall & _).
  fold s in Hq, Hw, Htake, Hos, Hall. fold k in Hw. rewrite <- Hw in Htake.
  pose proof (written_count_le s) as Hle. rewrite <- Hw in Hle.
  pose proof (Forall2_length _ _ _ Hall) as Hlen.
  split; [rewrite length_app; lia|].
  exists ss. rewrite take_app_le by lia.
  split; [by eapply tasks_returned|]. split; [done|].
  rewrite Hos. apply write_all_good.
Qed.

(** ** Nothing is left behind by a normal return *)

(** X5: when the function returns normally, whatever the number of
    threads, the queue is empty, every task that was submitted has
    finished without an exception, and each of them was written. *)
Theorem nothing_pending_at_return (sched : list action) (o : ostream)
    (f : F) :
  let s := write_body_threads sched o f in
  pc s = Returned ->
  futures s = [] /\
  (forall id t,
     pool s !! id = Some t -> exists chunk, t = Ready (Returns chunk)) /\
  count_writes (log s) = length (pool s).
Proof.
  intros s Hpc.
  destruct (run_invariants sched o f)
    as ([_ _ Hat] & [_ _ Hw] & (ss & Htake & _)).
  fold s in Hat, Hw, Htake. unfold at_pc in Hat. rewrite Hpc in Hat.
  destruct Hat as [_ Hf].
  assert (written_count s = length (pool s)) as Hwc.
  { unfold written_count, popped. rewrite Hpc, Hf. simpl. lia. }
  rewrite Hwc in Htake. rewrite firstn_all in Htake.
  split; [done|]. split; [|by rewrite Hw].
  intros id t Hid. rewrite Htake, list_lookup_fmap in Hid.
  destruct (ss !! id) as [chunk|]; simplify_eq/=. by exists chunk.
Qed.

(** ** The outcome does not depend on the schedule *)

Lemma raised_origin (s : state) (e : exception) :
  pc (coord_step s) = Raised e ->
  pc s = Raised e \/
  (pc s = L59 /\
   exists id rest,
     futures s = id :: rest /\ pool s !! id = Some (Ready (Throws e))) \/
  (exists chunk,
     pc s = L61 chunk /\ snd (ostream_write (os s) chunk) = Some e).
Proof.
  unfold coord_step. destruct (pc s) eqn:Epc.
  all: try destruct (submit_next_chunk_spec (L44 (batch_i + 1)) s)
         as (c & f' & _ & ->).
  all: try destruct (submit_next_chunk_spec L59 s) as (c & f' & _ & ->).
  all: try (repeat case_match; simpl; intros Hr; congruence).
  - (* line 59 *)
    destruct (futures s) as [|id rest] eqn:Hf; [congruence|].
    destruct (pool s !! id) as [[c|[chunk|e']]|] eqn:Hid; simpl;
      intros Hr; try congruence.
    injection Hr as ->. right. left. eauto.
  - (* line 61 *)
    destruct (ostream_write (os s) chunk) as [os' [e'|]] eqn:Hw; simpl;
      intros Hr; [|congruence].
    injection Hr as ->. right. right. exists chunk. by rewrite Hw.
  - intros Hr. left. congruence.
Qed.

Lemma L61_step_pc (s : state) (chunk : string) :
  pc s = L61 chunk ->
  pc (coord_step s) =
    match snd (ostream_write (os s) chunk) with
    | Some e => Raised e
    | None => L49
    end.
Proof.
  intros Hpc. unfold coord_step. rewrite Hpc.
  by destruct (ostream_write (os s) chunk) as [os' thrown].
Qed.

(** The chunk about to be written at line 61 is the next in the order
    of generation. *)
Lemma written_chunk (cs : list CHUNK) (s : state) (chunk : string) :
  queue_inv s -> chunks_inv cs s -> pc s = L61 chunk ->
  exists c, cs !! written_count s = Some c /\ call_chunk c = Returns chunk.
Proof.
  intros [_ _ Hat] (sub & rem & -> & Hall & _) Hpc.
  unfold at_pc in Hat. unfold written_count. rewrite Hpc in *.
  destruct Hat as (_ & _ & Hlast).
  destruct (Forall2_lookup_r _ _ _ _ _ Hall Hlast) as (c & Hc & [Ht|Ht]);
    [done|].
  exists c. split; [by apply lookup_app_l_Some|congruence].
Qed.

Lemma front_is_next (s : state) (id : nat) (rest : list nat) :
  queue_inv s -> futures s = id :: rest -> id = popped s.
Proof.
  intros [Hseq _ _] Hf. rewrite Hf in Hseq. simpl in Hseq.
  by injection Hseq as -> _.
Qed.

Lemma coord_step_outcome_inv (cs : list CHUNK) (o : ostream) (s : state) :
  queue_inv s -> chunks_inv cs s -> outcome_inv cs o s ->
  outcome_inv cs o (coord_step s).
Proof.
  intros Hq Hc Ho.
  pose proof (written_count_step s Hq) as Hwc.
  pose proof (coord_step_os s) as Hos.
  unfold outcome_inv in *.
  destruct (pc (coord_step s)) eqn:Epc'.
  12: { (* the step raised, or the run was over *)
    destruct (raised_origin s e Epc')
      as [Hpc|[(Hpc & id & rest & Hf & Hid)|(chunk & Hpc & Hthrown)]].
    - rewrite terminal_coord_step by by rewrite Hpc. by rewrite Hpc in Ho.
    - rewrite Hpc in Ho, Hos. rewrite Hos.
      destruct (task_threw cs s id e Hc Hid) as (c & Hc1 & Hc2).
      assert (written_count s = id) as Hk.
      { unfold written_count. rewrite Hpc. symmetry.
        by eapply front_is_next. }
      rewrite Hk, (drop_S _ _ _ Hc1) in Ho. simpl in Ho.
      by rewrite Hc2 in Ho.
    - rewrite Hpc in Ho, Hos. rewrite Hos.
      destruct (written_chunk cs s chunk Hq Hc Hpc) as (c & Hc1 & Hc2).
      rewrite (drop_S _ _ _ Hc1) in Ho. simpl in Ho. rewrite Hc2 in Ho.
      destruct (ostream_write (os s) chunk) as [os' thrown].
      simpl in *. by subst thrown. }
  all: destruct (pc s) eqn:Epc;
         try (rewrite terminal_coord_step in Epc' by (by rewrite Epc);
              congruence);
         try (by rewrite Hwc, Hos).
  all: (* line 61, nothing thrown *)
    match goal with
    | H61 : pc ?st = L61 ?b |- _ =>
        rewrite (L61_step_pc st b H61) in Epc';
        destruct (written_chunk cs st b Hq Hc H61) as (c & Hc1 & Hc2);
        rewrite (drop_S _ _ _ Hc1) in Ho; simpl in Ho; rewrite Hc2 in Ho;
        rewrite Hwc, Hos;
        destruct (ostream_write (os st) b) as [os' [e|]]; simpl in *;
        [congruence|done]
    end.
Qed.

Lemma exec_outcome_inv (cs : list CHUNK) (o : ostream)
    (sched : list action) (s : state) :
  queue_inv s -> chunks_inv cs s -> outcome_inv cs o s ->
  outcome_inv cs o (exec sched s).
Proof.
  revert s. induction sched as [|a sched IH]; intros s Hq Hc Ho; simpl;
    [done|].
  destruct a as [|id]; simpl.
  - apply IH; [by apply coord_step_queue_inv
              |by apply coord_step_chunks_inv
              |by apply coord_step_outcome_inv].
  - pose proof (worker_completes_only id s) as Hw.
    apply IH; [by eapply queue_inv_only|by apply chunks_inv_worker|].
    unfold outcome_inv in *. rewrite (written_count_only _ _ Hw).
    destruct Hw as (-> & _ & _ & -> & _). done.
Qed.

(** A run that ended has the outcome of handling the chunks in order. *)
Lemma terminal_outcome (cs : list CHUNK) (sched : list action)
    (o : ostream) (f : F) :
  (0 < window)%Z -> yields f cs ->
  let s := write_body_threads sched o f in
  is_terminal (pc s) = true ->
  in_order_outcome (map call_chunk cs) o = (pc s, os s).
Proof.
  intros Hw Hy s Ht.
  destruct (run_invariants sched o f) as (Hq & _ & _).
  pose proof (run_chunks_inv cs sched o f Hy) as Hc.
  assert (outcome_inv cs o s) as Ho.
  { apply exec_outcome_inv;
      [apply queue_inv_initial|by apply chunks_inv_initial|done]. }
  fold s in Hq, Hc. unfold outcome_inv in Ho.
  destruct (pc s) eqn:Epc; try done.
  rewrite Ho.
  destruct Hq as [_ _ Hat]. unfold at_pc in Hat. rewrite Epc in Hat.
  destruct Hat as [[_ Hfull] Hf]. unfold queue_length in Hfull.
  rewrite Hf in Hfull. simpl in Hfull.
  assert (has_next (formatter s) = false) as Hn
    by (destruct (has_next (formatter s));
        [specialize (Hfull eq_refl)|]; [lia|done]).
  destruct Hc as (sub & rem & Hcs & Hall & Hyr).
  rewrite (yields_no_next _ _ Hyr Hn), app_nil_r in Hcs. subst sub.
  assert (written_count s = length cs) as ->.
  { unfold written_count, popped. rewrite Epc, Hf. simpl.
    rewrite (Forall2_length _ _ _ Hall). lia. }
  by rewrite drop_all.
Qed.

(** X1: the outcome of the function does not depend on when the workers
    finish which task: any two runs over the same formatter and sink
    that have ended, ended the same way (both returned, or both raised
    the same exception) and left the sink in the same state. *)
Theorem outcome_independent_of_schedule (cs : list CHUNK)
    (sched1 sched2 : list action) (o : ostream) (f : F) :
  yields f cs ->
  let s1 := write_body_threads sched1 o f in
  let s2 := write_body_threads sched2 o f in
  is_terminal (pc s1) = true -> is_terminal (pc s2) = true ->
  pc s1 = pc s2 /\ os s1 = os s2.
Proof.
  intros Hy s1 s2 Ht1 Ht2.
  destruct (Z.lt_ge_cases 0 window) as [Hw|Hw].
  - pose proof (terminal_outcome cs sched1 o f Hw Hy Ht1) as H1.
    pose proof (terminal_outcome cs sched2 o f Hw Hy Ht2) as H2.
    fold s1 in H1. fold s2 in H2. rewrite H1 in H2. by simplify_eq.
  - assert (inflight_count thread_count <= 0)%Z as Hi
      by (unfold window in Hw; lia).
    destruct (idle_after_exec 0 o f sched1 (initial o f) Hi)
      as (_ & _ & Ho1 & _ & Hpc1 & _); [by unfold idle_after|].
    destruct (idle_after_exec 0 o f sched2 (initial o f) Hi)
      as (_ & _ & Ho2 & _ & Hpc2 & _); [by unfold idle_after|].
    fold (write_body_threads sched1 o f) in Ho1, Hpc1.
    fold (write_body_threads sched2 o f) in Ho2, Hpc2.
    fold s1 in Ho1, Hpc1. fold s2 in Ho2, Hpc2.
    rewrite Ho1, Ho2. split; [|done].
    rewrite Hpc1 in Ht1 |- *. rewrite Hpc2 in Ht2 |- *.
    destruct (0 + coordinator_steps sched1) as [|[|n1]]; try done.
    destruct (0 + coordinator_steps sched2) as [|[|n2]]; done.
Qed.

(** ** Every future is retrieved once *)

Lemma pushed_app (evs1 evs2 : list event) :
  pushed (evs1 ++ evs2) = pushed evs1 ++ pushed evs2.
Proof.
  induction evs1 as [|ev evs1 IH]; simpl; [done|].
  destruct ev; simpl; by rewrite ?IH.
Qed.

Lemma retrieved_app (evs1 evs2 : list event) :
  retrieved (evs1 ++ evs2) = retrieved evs1 ++ retrieved evs2.
Proof.
  induction evs1 as [|ev evs1 IH]; simpl; [done|].
  destruct ev; simpl; by rewrite ?IH.
Qed.

Lemma removed_app (evs1 evs2 : list event) :
  removed (evs1 ++ evs2) = removed evs1 ++ removed evs2.
Proof.
  induction evs1 as [|ev evs1 IH]; simpl; [done|].
  destruct ev; simpl; by rewrite ?IH.
Qed.

#[local] Hint Rewrite pushed_app retrieved_app removed_app : log_lists.

Lemma seq_snoc (n : nat) : seq 0 n ++ [n] = seq 0 (n + 1).
Proof. rewrite Nat.add_1_r, seq_S. done. Qed.

Lemma popped_goto (l : label) (evs : list event) (s : state) :
  popped (goto l evs s) = popped s.
Proof. done. Qed.

Lemma popped_submit (l : label) (f' : F) (t : shared_state CHUNK) (n : nat)
    (evs : list event) (s : state) :
  length (futures s) <= length (pool s) ->
  popped {| pc := l; formatter := f'; pool := pool s ++ [t];
            futures := futures s ++ [n]; os := os s; log := evs |} =
  popped s.
Proof. intros Hlen. unfold popped. simpl. rewrite !length_app. simpl. lia. Qed.

Lemma popped_pop (l : label) (evs : list event) (s : state) (id : nat)
    (rest : list nat) :
  futures s = id :: rest -> length (futures s) <= length (pool s) ->
  popped {| pc := l; formatter := formatter s; pool := pool s;
            futures := rest; os := os s; log := evs |} =
  popped s + 1.
Proof. intros Hf Hlen. unfold popped. rewrite Hf in *. simpl in *. lia. Qed.

Lemma coord_step_retrieved_inv (s : state) :
  queue_inv s -> retrieved_inv s -> retrieved_inv (coord_step s).
Proof.
  intros Hq (Hpush & Hrem & g & Hget & Hg).
  pose proof Hq as [Hseq Hlen Hat]. unfold at_pc, front_ready in Hat.
  unfold retrieved_inv, coord_step. destruct (pc s) eqn:Epc.
  - (* line 44 *)
    destruct (batch_i <? inflight_count thread_count)%Z;
      [destruct (has_next (formatter s))|];
      rewrite popped_goto; cbn [goto log pc pool]; log_lists; eauto 10.
  - (* line 45 *)
    destruct (submit_next_chunk_spec (L44 (batch_i + 1)) s)
      as (c & f' & _ & ->).
    rewrite popped_submit by done. cbn [log pc pool]. log_lists.
    rewrite Hpush, seq_snoc, length_app. simpl. eauto 10.
  - (* line 49 *)
    destruct (futures s); rewrite popped_goto; cbn [goto log pc pool];
      log_lists; eauto 10.
  - (* line 50 *)
    destruct (futures s) as [|id rest] eqn:Hf.
    { rewrite Epc. eauto 10. }
    destruct (pool s !! id) as [[c|r]|]; rewrite popped_goto;
      cbn [goto log pc pool]; log_lists; eauto 10.
  - (* line 54 *)
    destruct (has_next (formatter s)); rewrite popped_goto;
      cbn [goto log pc pool]; log_lists; eauto 10.
  - (* line 55 *)
    destruct (submit_next_chunk_spec L59 s) as (c & f' & _ & ->).
    rewrite popped_submit by done. cbn [log pc pool]. log_lists.
    rewrite Hpush, seq_snoc, length_app. simpl. eauto 10.
  - (* line 59 *)
    destruct (futures s) as [|id rest] eqn:Hf.
    { rewrite Epc. eauto 10. }
    pose proof (front_is_next s id rest Hq Hf) as ->.
    destruct (pool s !! popped s) as [[c|[chunk|e]]|]; try rewrite Epc;
      eauto 10.
    + rewrite popped_goto. cbn [goto log pc pool]. log_lists.
      do 2 (split; [done|]). exists (g + 1).
      rewrite Hget, Hg, seq_snoc. done.
    + rewrite popped_goto. cbn [goto log pc pool]. log_lists.
      do 2 (split; [done|]). exists (g + 1).
      rewrite Hget, Hg, seq_snoc. split; [done|]. right. split; [done|].
      cbn [goto futures]. by rewrite Hf.
  - (* line 60 *)
    destruct (futures s) as [|id rest] eqn:Hf.
    { rewrite Epc. eauto 10. }
    pose proof (front_is_next s id rest Hq Hf) as ->.
    rewrite (popped_pop _ _ s (popped s) rest) by (rewrite ?Hf; done).
    cbn [log pc pool]. log_lists. rewrite Hrem, seq_snoc. eauto 10.
  - (* line 61 *)
    destruct (ostream_write (os s) chunk) as [os' [e|]];
      change (popped _) with (popped s); cbn [log pc pool]; log_lists;
      eauto 10.
  - (* line 64 *)
    rewrite popped_goto. cbn [goto log pc pool]. log_lists. eauto 10.
  - rewrite Epc. eauto 10.
  - rewrite Epc. eauto 10.
Qed.

Lemma exec_retrieved_inv (sched : list action) (s : state) :
  queue_inv s -> retrieved_inv s -> retrieved_inv (exec sched s).
Proof.
  revert s. induction sched as [|a sched IH]; intros s Hq Hr; simpl;
    [done|].
  destruct a as [|id]; simpl.
  - apply IH; [by apply coord_step_queue_inv
              |by apply coord_step_retrieved_inv].
  - pose proof (worker_completes_only id s) as Hw.
    apply IH; [by eapply queue_inv_only|].
    unfold retrieved_inv in *. rewrite (popped_only _ _ Hw).
    destruct Hw as (-> & _ & -> & _ & -> & -> & _). done.
Qed.

(** X3: every future is pushed once, in the order of submission, popped
    in that order, and retrieved with get() in that order and at most
    once; a future is retrieved only after it was pushed, and at most one
    future is retrieved and not yet popped. *)
Theorem futures_retrieved_once_in_order (sched : list action)
    (o : ostream) (f : F) :
  let s := write_body_threads sched o f in
  pushed (log s) = seq 0 (length (pool s)) /\
  removed (log s) = seq 0 (popped s) /\
  NoDup (retrieved (log s)) /\
  exists g,
    retrieved (log s) = seq 0 g /\
    popped s <= g <= popped s + 1 /\ g <= length (pool s).
Proof.
  intros s. destruct (run_invariants sched o f) as (Hq & _ & _).
  assert (retrieved_inv s) as (Hpush & Hrem & g & Hget & Hg).
  { apply exec_retrieved_inv; [apply queue_inv_initial|].
    split; [done|]. split; [done|]. by exists 0. }
  fold s in Hq. destruct Hq as [_ Hlen Hat].
  unfold at_pc, front_ready in Hat.
  split; [done|]. split; [done|].
  split; [rewrite Hget; apply NoDup_seq|].
  exists g. split; [done|].
  assert (futures s <> [] -> popped s + 1 <= length (pool s)) as Hne.
  { unfold popped. destruct (futures s); [done|]. simpl in *. lia. }
  assert (popped s <= length (pool s)) as Hp by (unfold popped; lia).
  destruct (pc s) eqn:Epc; try lia.
  - destruct Hat as (_ & id & rest & Hf & _).
    rewrite Hf in Hne. specialize (Hne ltac:(done)). lia.
  - destruct Hg as [->|[-> Hf]]; [lia|]. specialize (Hne Hf). lia.
Qed.

(** X8: the queue never reorders and never loses a future: at every
    point it holds exactly the futures pushed and not yet popped, oldest
    first, so that the future at its front is the one of the oldest chunk
    not yet popped. *)
Theorem queue_holds_the_unpopped_in_order (sched : list action)
    (o : ostream) (f : F) :
  let s := write_body_threads sched o f in
  let popped_so_far := length (removed (log s)) in
  futures s = seq popped_so_far (length (futures s)) /\
  popped_so_far + length (futures s) = length (pushed (log s)).
Proof.
  intros s popped_so_far.
  destruct (run_invariants sched o f) as ([Hseq Hlen _] & _ & _).
  assert (retrieved_inv s) as (Hpush & Hrem & _).
  { apply exec_retrieved_inv; [apply queue_inv_initial|].
    split; [done|]. split; [done|]. by exists 0. }
  fold s in Hseq, Hlen.
  assert (popped_so_far = popped s) as ->
    by (unfold popped_so_far; by rewrite Hrem, length_seq).
  split; [done|]. rewrite Hpush, length_seq. unfold popped. lia.
Qed.

(** ** What is written is what was just retrieved *)

Lemma event_in_app (ev : event) (evs1 evs2 pre post : list event) :
  evs1 ++ evs2 = pre ++ ev :: post ->
  (exists post', evs1 = pre ++ ev :: post') \/
  (exists mid, pre = evs1 ++ mid /\ evs2 = mid ++ ev :: post).
Proof.
  intros H. apply app_eq_inv in H as [(k & Hk1 & Hk2)|(k & Hk1 & Hk2)].
  - destruct k as [|ev' k]; simpl in *.
    + right. exists []. rewrite app_nil_r in *. done.
    + left. exists k. by simplify_eq.
  - right. by exists k.
Qed.

Lemma coord_step_keeps_ready (s : state) (i : nat) (r : result) :
  pool s !! i = Some (Ready r) -> pool (coord_step s) !! i = Some (Ready r).
Proof.
  intros Hi.
  destruct (coord_step_source s) as [(_ & c & f' & _ & _ & -> & _)|[_ ->]];
    [by apply lookup_app_l_Some|done].
Qed.

Lemma coord_step_logs_write (s : state) (evs : list event)
    (chunk : string) :
  log (coord_step s) = log s ++ evs -> In (ev_write chunk) evs ->
  pc s = L61 chunk /\ evs = [ev_write chunk] /\ pool (coord_step s) = pool s.
Proof.
  unfold coord_step. destruct (pc s) eqn:Epc.
  all: try destruct (submit_next_chunk_spec (L44 (batch_i + 1)) s)
         as (c & f' & _ & ->).
  all: try destruct (submit_next_chunk_spec L59 s) as (c & f' & _ & ->).
  all: repeat case_match; simpl; intros Hl Hin.
  all: try (apply app_inv_head in Hl; subst evs).
  all: try (rewrite <- (app_nil_r (log s)) in Hl at 1;
            apply app_inv_head in Hl; subst evs).
  all: simpl in Hin; intuition (simplify_eq; eauto).
Qed.

Lemma coord_step_write_inv (s : state) :
  queue_inv s -> write_inv s -> write_inv (coord_step s).
Proof.
  intros Hq [Hlog H60 H61]. split.
  - intros pre chunk post Heq.
    destruct (coord_step_log_grows s) as [evs Hevs].
    rewrite Hevs in Heq.
    apply event_in_app in Heq as [[post' Hl]|(mid & -> & Hm)].
    + destruct (Hlog _ _ _ Hl) as (pre' & id & Hpre & Hid).
      exists pre', id. split; [done|]. by apply coord_step_keeps_ready.
    + destruct (coord_step_logs_write s evs chunk Hevs)
        as (Hpc & -> & ->); [rewrite Hm; apply in_elt|].
      destruct (H61 chunk Hpc) as (pre' & id & Hl & Hid).
      destruct mid as [|? mid]; simplify_eq/=.
      * rewrite app_nil_r. eauto.
      * by destruct mid.
  - intros chunk Hpc'.
    destruct (pc s) eqn:Epc;
      try (unfold coord_step in Hpc'; rewrite Epc in Hpc';
           try destruct (submit_next_chunk_spec (L44 (batch_i + 1)) s)
             as (c & f' & _ & Hs); try rewrite Hs in Hpc';
           try destruct (submit_next_chunk_spec L59 s) as (c & f' & _ & Hs);
             try rewrite Hs in Hpc';
           repeat case_match; simpl in Hpc'; congruence).
    + (* line 59 *)
      unfold coord_step in *. rewrite Epc in *.
      destruct (futures s) as [|id rest] eqn:Hf; [congruence|].
      destruct (pool s !! id) as [[c|[chunk'|e]]|] eqn:Hid;
        simpl in *; try congruence.
      injection Hpc' as ->. exists (log s), id, rest. by rewrite Hf.
    + (* line 60 *)
      unfold coord_step in *. rewrite Epc in *.
      destruct (futures s) as [|id rest] eqn:Hf; simpl in *;
        [|congruence].
      rewrite Epc in Hpc'. injection Hpc' as ->.
      destruct (H60 chunk eq_refl) as (pre' & id & rest & _ & Hf' & _).
      congruence.
  - intros chunk Hpc'.
    destruct (pc s) eqn:Epc;
      try (unfold coord_step in Hpc'; rewrite Epc in Hpc';
           try destruct (submit_next_chunk_spec (L44 (batch_i + 1)) s)
             as (c & f' & _ & Hs); try rewrite Hs in Hpc';
           try destruct (submit_next_chunk_spec L59 s) as (c & f' & _ & Hs);
             try rewrite Hs in Hpc';
           repeat case_match; simpl in Hpc'; congruence).
    (* line 60 *)
    destruct (H60 chunk0 eq_refl) as (pre' & id & rest & Hl & Hf & Hid).
    unfold coord_step in *. rewrite Epc, Hf in *. simpl in *.
    injection Hpc' as ->. exists pre', id.
    rewrite Hl, <- app_assoc. done.
Qed.

Lemma exec_write_inv (sched : list action) (s : state) :
  queue_inv s -> write_inv s -> write_inv (exec sched s).
Proof.
  revert s. induction sched as [|a sched IH]; intros s Hq Hw; simpl;
    [done|].
  destruct a as [|id]; simpl.
  - apply IH; [by apply coord_step_queue_inv|by apply coord_step_write_inv].
  - pose proof (worker_completes_only id s)
      as (Hpc & _ & Hf & _ & Hl & _ & Hr & _).
    apply IH; [eapply queue_inv_only; [apply worker_completes_only|done]|].
    destruct Hw as [Hlog H60 H61]. split; rewrite ?Hpc, ?Hl, ?Hf.
    + intros pre chunk post Heq.
      destruct (Hlog _ _ _ Heq) as (pre' & i & Hpre & Hi). eauto.
    + intros chunk Hc.
      destruct (H60 _ Hc) as (pre' & i & rest & ? & ? & Hi). eauto 10.
    + intros chunk Hc.
      destruct (H61 _ Hc) as (pre' & i & ? & Hi). eauto 10.
Qed.

(** X6: every write in the log comes immediately after the get() and the
    pop() of one and the same future, with no other call of the
    coordinator in between, and the bytes written are the bytes that
    future holds. *)
Theorem written_bytes_are_the_retrieved_ones (sched : list action)
    (o : ostream) (f : F) :
  let s := write_body_threads sched o f in
  forall pre chunk post,
    log s = pre ++ ev_write chunk :: post ->
    exists pre' id,
      pre = pre' ++ [ev_get id; ev_pop id] /\
      pool s !! id = Some (Ready (Returns chunk)).
Proof.
  intros s. apply exec_write_inv; [apply queue_inv_initial|].
  split; simpl.
  - intros [|? pre] chunk post; simpl; intros [=].
  - intros chunk [=].
  - intros chunk [=].
Qed.

(** ** Tasks and chunks *)

(** X7: the formatter is asked for its chunks one after the other and
    each chunk is submitted once: the task with index i works on the
    i-th chunk generated, its result, once ready, is the outcome of that
    chunk, and the formatter is left just behind the chunks submitted. *)
Theorem tasks_are_the_chunks_in_order (cs : list CHUNK)
    (sched : list action) (o : ostream) (f : F) :
  yields f cs ->
  let s := write_body_threads sched o f in
  length (pool s) <= length cs /\
  yields (formatter s) (drop (length (pool s)) cs) /\
  forall i t,
    pool s !! i = Some t ->
    exists c, cs !! i = Some c /\ (t = Pending c \/ t = Ready (call_chunk c)).
Proof.
  intros Hy s.
  destruct (run_chunks_inv cs sched o f Hy) as (sub & rem & -> & Hall & Hyr).
  fold s in Hall, Hyr. pose proof (Forall2_length _ _ _ Hall) as Hlen.
  split; [rewrite length_app; lia|]. split.
  - by rewrite <- Hlen, drop_app_length.
  - intros i t Hi.
    destruct (Forall2_lookup_r _ _ _ _ _ Hall Hi) as (c & Hc & Ht).
    exists c. split; [by apply lookup_app_l_Some|done].
Qed.

End write_body_threads.

(** * The window for every configuration *)

Lemma pool_thread_count_range (configured : Z) :
  (0 <= configured <= max_thread_count)%Z ->
  (1 <= pool_thread_count configured <= max_thread_count)%Z.
Proof.
  unfold pool_thread_count, max_thread_count. intros Hr.
  destruct (Z.eqb_spec configured 0); lia.
Qed.

(** C5: for every configured worker count, 0 included, the window the
    coordinator uses is at least 1; hence, once the first chunk has been
    submitted, the queue is not empty whenever the formatter has another
    chunk; every run over a finite source of N chunks can be continued
    until the function is left, and when it returns every chunk was
    submitted and the queue is empty; and the function is left as soon as
    the coordinator has executed more than 32 N + 13 statements plus three
    for every poll that found the front unfinished: only workers that do
    not finish the front task delay it. *)
Theorem window_at_least_one {F CHUNK : Type} `{!Formatter F CHUNK}
    (options : write_options) (cs : list CHUNK) (sched : list action)
    (o : ostream) (f : F) :
  (0 <= num_threads options <= max_thread_count)%Z ->
  yields options f cs ->
  let threads := pool_thread_count (num_threads options) in
  let s := write_body_threads threads options sched o f in
  (1 <= inflight_count threads)%Z /\
  (has_next (formatter s) = true ->
   futures s <> [] \/ pc s = L44 0 \/ pc s = L45 0) /\
  (exists sched',
     let s' := write_body_threads threads options (sched ++ sched') o f in
     is_terminal (pc s') = true /\
     (pc s' = Returned ->
      has_next (formatter s') = false /\ futures s' = [] /\
      length (pool s') = length cs)) /\
  (32 * length cs + 13 + 3 * unready_polls (log s) < coordinator_steps sched ->
   is_terminal (pc s) = true).
Proof.
  intros Hr Hy threads s.
  pose proof (pool_thread_count_range _ Hr) as Ht. fold threads in Ht.
  assert (inflight_count threads = 3 * threads)%Z as Hi
    by (apply (inflight_count_in_range threads); lia).
  assert (0 < window threads)%Z as Hw by (unfold window; lia).
  split; [lia|]. split.
  - apply (work_left_is_outstanding threads); [done|].
    apply (run_invariants threads options sched o f).
  - split; [by apply can_finish|]. by apply bounded_work.
Qed.

(** C10: when the pool reports 0 threads the window is 0 and the
    function executes the loop test of line 44 and the loop test of
    line 49 and returns: it calls neither has_next nor next_chunk, it
    submits nothing and writes nothing, whatever the formatter holds. *)
Theorem zero_threads_returns_at_once {F CHUNK : Type} `{!Formatter F CHUNK}
    (options : write_options) (sched : list action) (o : ostream) (f : F) :
  let s := write_body_threads 0 options sched o f in
  inflight_count 0 = 0%Z /\
  pool s = [] /\ futures s = [] /\ os s = o /\ formatter s = f /\
  pc s = match coordinator_steps sched with
         | 0 => L44 0
         | 1 => L49
         | _ => Returned
         end /\
  log s = match coordinator_steps sched with
          | 0 | 1 => []
          | _ => [ev_empty true]
          end.
Proof.
  intros s. split; [done|].
  apply (idle_after_exec 0 options 0 o f sched (initial o f)); [done|].
  by unfold idle_after.
Qed.

(** * The properties on sample runs *)

(** Five chunks "A" to "E", two threads (window 6), the tasks finishing
    in reverse order: the sink holds "ABCDE". *)
Lemma chunks_written_in_submission_order_witness :
  (1 <= 2 <= max_thread_count)%Z /\
  yields two_threads abcde abcde /\
  let s := write_body_threads 2 two_threads reversed_completion
             unlimited_sink abcde in
  pc s = Returned /\ badbit (os s) = false /\
  (exists ss,
     map call_chunk abcde = map Returns ss /\
     written (os s) = written unlimited_sink +:+ concat_bytes ss) /\
  written (os s) = "ABCDE".
Proof.
  assert (1 <= 2 <= max_thread_count)%Z as Hr
    by (unfold max_thread_count; lia).
  assert (yields two_threads abcde abcde) as Hy.
  { repeat (eapply yields_more; [reflexivity|reflexivity|]).
    apply yields_done. reflexivity. }
  split; [exact Hr|]. split; [exact Hy|]. intros s.
  split; [reflexivity|]. split; [reflexivity|]. split; [|reflexivity].
  apply (chunks_written_in_submission_order 2 two_threads abcde
           reversed_completion unlimited_sink abcde Hr Hy); reflexivity.
Defined.

(** The third of five chunks throws: "AB" is in the sink and stays all
    there is, whatever happens afterwards; and the run in which no task
    has finished yet can be continued to that exception. *)
Lemma worker_failure_aborts_witness :
  yields one_thread ab_fails_de ab_fails_de /\
  let e := task_exception "bad value" in
  (let s := write_body_threads 1 one_thread third_at_59 unlimited_sink
              ab_fails_de in
   pc s = L59 /\ futures s = [2; 3; 4] /\
   pool s !! 2 = Some (Ready (Throws e)) /\
   let s' := coord_step 1 one_thread s in
   let s'' := exec 1 one_thread [Worker 3; Coordinator; Worker 4; Coordinator]
                s' in
   (pc s' = Raised e /\
    (exists c ss,
       ab_fails_de !! 2 = Some c /\ call_chunk c = Throws e /\
       map call_chunk (take 2 ab_fails_de) = map Returns ss /\
       os s' = write_all ss unlimited_sink /\
       (badbit (os s') = false ->
        written (os s') = written unlimited_sink +:+ concat_bytes ss)) /\
    (pc s'' = Raised e /\ os s'' = os s' /\ formatter s'' = formatter s' /\
     length (pool s'') = length (pool s') /\ log s'' = log s')) /\
   written (os s'') = "AB") /\
  ((1 <= 1 <= max_thread_count)%Z /\
   ab_fails_de !! 2 = Some (Throws e) /\
   map call_chunk (take 2 ab_fails_de) = map Returns ["A"; "B"] /\
   exists sched'',
     let t := write_body_threads 1 one_thread (priming 3 ++ sched'')
                unlimited_sink ab_fails_de in
     pc t = Raised e /\ os t = write_all ["A"; "B"] unlimited_sink).
Proof.
  assert (yields one_thread ab_fails_de ab_fails_de) as Hy.
  { repeat (eapply yields_more; [reflexivity|reflexivity|]).
    apply yields_done. reflexivity. }
  split; [exact Hy|]. intros e. split.
  - intros s.
    assert (pc s = L59) as Hpc by reflexivity.
    assert (futures s = [2; 3; 4]) as Hf by reflexivity.
    assert (pool s !! 2 = Some (Ready (Throws e))) as Hid by reflexivity.
    split; [exact Hpc|]. split; [exact Hf|]. split; [exact Hid|].
    intros s' s''. split; [|reflexivity].
    exact (proj1 (worker_failure_aborts 1 one_thread ab_fails_de third_at_59
                    [Worker 3; Coordinator; Worker 4; Coordinator]
                    unlimited_sink ab_fails_de Hy)
             2 [3; 4] e Hpc Hf Hid).
  - assert (1 <= 1 <= max_thread_count)%Z as Hr
      by (unfold max_thread_count; lia).
    split; [exact Hr|]. split; [reflexivity|]. split; [reflexivity|].
    exact (proj2 (worker_failure_aborts 1 one_thread ab_fails_de (priming 3)
                    [] unlimited_sink ab_fails_de Hy)
             2 (Throws e) e ["A"; "B"] Hr eq_refl eq_refl eq_refl eq_refl).
Defined.

(** C2, as stated, fails: one thread, a device with room for three
    bytes and a stream with the default exception mask; the chunks are
    "AB", "CD", one that throws, and "E".  The append of "CD" fails
    unnoticed after "C"; the retrieval of the third chunk then rethrows
    and the function is left by that exception with "ABC" in the sink,
    not the bytes "ABCD" of the first two chunks; nothing is written
    afterwards. *)
Lemma failed_append_loses_bytes_before_the_failure :
  let e := task_exception "bad value" in
  let s := write_body_threads 1 one_thread third_of_four_at_59
             (small_sink 3 false) ab_cd_fails_e in
  let s' := coord_step 1 one_thread s in
  let s'' := exec 1 one_thread [Worker 3; Coordinator; Coordinator] s' in
  (pc s = L59 /\ futures s = [2; 3] /\
   pool s !! 2 = Some (Ready (Throws e)) /\
   ab_cd_fails_e !! 2 = Some (Throws e) /\
   map call_chunk (take 2 ab_cd_fails_e) = map Returns ["AB"; "CD"]) /\
  (pc s' = Raised e /\ written (os s') = "ABC" /\
   written (os s') <>
     written (small_sink 3 false) +:+ concat_bytes ["AB"; "CD"]) /\
  (pc s'' = Raised e /\ written (os s'') = "ABC").
Proof.
  vm_compute. repeat split. intros [=].
Qed.

(** C3, as stated, fails: one thread (window 3), four chunks; once the
    first task is finished and the coordinator has refilled the window at
    line 55, four Work Items are submitted and none is written, and the
    queue holds four futures. *)
Lemma window_exceeded_after_refill :
  let s := write_body_threads 1 one_thread refilled_at_59 unlimited_sink
             abcd in
  (0 <= 1 <= max_thread_count)%Z /\ pc s = L59 /\
  outstanding s = 4%Z /\ queue_length s = 4%Z /\
  ~ (outstanding s <= 3 * 1)%Z /\ ~ (queue_length s <= 3 * 1)%Z.
Proof.
  intros s.
  assert (outstanding s = 4%Z) as Ho by reflexivity.
  assert (queue_length s = 4%Z) as Hl by reflexivity.
  rewrite Ho, Hl. unfold max_thread_count.
  repeat split; try lia. 
Qed.

Lemma outstanding_at_most_window_plus_one_witness :
  (0 <= 1 <= max_thread_count)%Z /\
  (let s := write_body_threads 1 one_thread refilled_at_59 unlimited_sink
              abcd in
   (outstanding s <= 3 * 1 + 1)%Z /\
   (refilled_unwritten (pc s) = false -> (outstanding s <= 3 * 1)%Z)) /\
  (let s := write_body_threads 1 one_thread front_ready_at_50 unlimited_sink
              abcd in
   refilled_unwritten (pc s) = false /\ (outstanding s <= 3 * 1)%Z).
Proof.
  assert (0 <= 1 <= max_thread_count)%Z as Hr
    by (unfold max_thread_count; lia).
  split; [exact Hr|]. split.
  - exact (outstanding_at_most_window_plus_one 1 one_thread refilled_at_59
             unlimited_sink abcd Hr).
  - intros s. split; [reflexivity|].
    apply (outstanding_at_most_window_plus_one 1 one_thread
             front_ready_at_50 unlimited_sink abcd Hr).
    reflexivity.
Defined.

Lemma queue_at_most_window_plus_one_witness :
  (0 <= 1 <= max_thread_count)%Z /\
  let s := write_body_threads 1 one_thread refilled_at_59 unlimited_sink
             abcd in
  (3 * 1 < queue_length s)%Z /\
  (queue_length s <= 3 * 1 + 1)%Z /\
  (pc s = L59 \/ (exists chunk, pc s = L60 chunk) \/
   (exists e, pc s = Raised e /\ front_ready (Throws e) s)).
Proof.
  assert (0 <= 1 <= max_thread_count)%Z as Hr
    by (unfold max_thread_count; lia).
  split; [exact Hr|]. intros s.
  assert (3 * 1 < queue_length s)%Z as Hgt by reflexivity.
  split; [exact Hgt|].
  destruct (queue_at_most_window_plus_one 1 one_thread refilled_at_59
              unlimited_sink abcd Hr) as [Hle Hat].
  split; [exact Hle|exact (Hat Hgt)].
Defined.



(** No worker count configured: the window is 3. *)
Lemma window_at_least_one_witness :
  (0 <= num_threads default_threads <= max_thread_count)%Z /\
  yields default_threads abcde abcde /\
  let threads := pool_thread_count (num_threads default_threads) in
  let s := write_body_threads threads default_threads (priming 3)
             unlimited_sink abcde in
  inflight_count threads = 3%Z /\
  has_next (formatter s) = true /\
  ((1 <= inflight_count threads)%Z /\
   (has_next (formatter s) = true ->
    futures s <> [] \/ pc s = L44 0 \/ pc s = L45 0) /\
   (exists sched',
      let s' := write_body_threads threads default_threads
                  (priming 3 ++ sched') unlimited_sink abcde in
      is_terminal (pc s') = true /\
      (pc s' = Returned ->
       has_next (formatter s') = false /\ futures s' = [] /\
       length (pool s') = length abcde)) /\
   (32 * length abcde + 13 + 3 * unready_polls (log s) <
      coordinator_steps (priming 3) ->
    is_terminal (pc s) = true)).
Proof.
  assert (0 <= num_threads default_threads <= max_thread_count)%Z as Hr
    by (unfold max_thread_count; simpl; lia).
  assert (yields default_threads abcde abcde) as Hy.
  { repeat (eapply yields_more; [reflexivity|reflexivity|]).
    apply yields_done. reflexivity. }
  split; [exact Hr|]. split; [exact Hy|]. intros threads s.
  split; [reflexivity|]. split; [reflexivity|].
  exact (window_at_least_one default_threads abcde (priming 3)
           unlimited_sink abcde Hr Hy).
Defined.

(** One thread, four chunks: the front is ready at line 50 and chunk "D"
    is still to come; it is submitted as task 3 before "A" is written. *)
Lemma refill_precedes_pop_witness :
  let s := write_body_threads 1 one_thread front_ready_at_50 unlimited_sink
             abcd in
  pc s = L50 /\ futures s = [0; 1; 2] /\
  pool s !! 0 = Some (Ready (Returns "A")) /\
  has_next (formatter s) = true /\
  let n := length (pool s) in
  let s3 := then_coord 1 one_thread [2]
              (then_coord 1 one_thread [1] (coord_step 1 one_thread s)) in
  let s6 := then_coord 1 one_thread []
              (then_coord 1 one_thread [3]
                 (then_coord 1 one_thread [] s3)) in
  exists c f',
    next_chunk (formatter s) one_thread = (c, f') /\
    (pc s3 = L59 /\ formatter s3 = f' /\ os s3 = os s /\
     futures s3 = 0 :: [1; 2] ++ [n] /\
     pool s3 !! n = Some (Pending c) /\
     log s3 = log s ++ [ev_is_ready 0 true; ev_has_next true;
                        ev_next_chunk; ev_submit n; ev_push n]) /\
    (forall chunk, Returns "A" = Returns chunk ->
       formatter s6 = f' /\ futures s6 = [1; 2] ++ [n] /\
       os s6 = fst (ostream_write (os s) chunk) /\
       log s6 = log s3 ++ [ev_get 0; ev_pop 0; ev_write chunk]) /\
    (queue_length s = window 1 /\ queue_length s3 = (window 1 + 1)%Z /\
     (forall chunk, Returns "A" = Returns chunk ->
        queue_length s6 = window 1)).
Proof.
  intros s.
  assert (pc s = L50) as Hpc by reflexivity.
  assert (futures s = [0; 1; 2]) as Hf by reflexivity.
  assert (pool s !! 0 = Some (Ready (Returns "A"))) as Hid by reflexivity.
  assert (has_next (formatter s) = true) as Hn by reflexivity.
  split; [exact Hpc|]. split; [exact Hf|]. split; [exact Hid|].
  split; [exact Hn|].
  exact (refill_precedes_pop 1 one_thread front_ready_at_50 unlimited_sink
           abcd 0 [1; 2] (Returns "A") [1] [2] [] [3] [] Hpc Hf Hid Hn).
Defined.

(** One thread, four chunks: the front is not ready at line 50; task 0
    finishes while the coordinator yields, and the next poll is on it. *)
Lemma unready_front_is_polled_again_witness :
  let s := write_body_threads 1 one_thread front_pending_at_50 unlimited_sink
             abcd in
  pc s = L50 /\ futures s = [0; 1; 2] /\
  pool s !! 0 = Some (Pending (Returns "A")) /\
  let s1 := coord_step 1 one_thread s in
  let s2 := then_coord 1 one_thread [1] s1 in
  let s3 := then_coord 1 one_thread [0] s2 in
  let s4 := then_coord 1 one_thread [] s3 in
  (pc s1 = L64 /\ pc s2 = L49 /\ pc s3 = L50) /\
  (formatter s3 = formatter s /\ futures s3 = futures s /\ os s3 = os s /\
   length (pool s3) = length (pool s)) /\
  log s3 = log s ++ [ev_is_ready 0 false; ev_yield; ev_empty false] /\
  (exists b, log s4 = log s3 ++ [ev_is_ready 0 b]) /\
  (forall (s0 : @state (list result) result) evs id',
     log (coord_step 1 one_thread s0) = log s0 ++ evs ->
     (exists b, In (ev_is_ready id' b) evs) \/ In (ev_get id') evs ->
     exists rest', futures s0 = id' :: rest').
Proof.
  intros s.
  assert (pc s = L50) as Hpc by reflexivity.
  assert (futures s = [0; 1; 2]) as Hf by reflexivity.
  assert (pool s !! 0 = Some (Pending (Returns "A"))) as Hid by reflexivity.
  split; [exact Hpc|]. split; [exact Hf|]. split; [exact Hid|].
  exact (unready_front_is_polled_again 1 one_thread front_pending_at_50
           unlimited_sink abcd 0 [1; 2] (Returns "A") [1] [0] []
           Hpc Hf Hid).
Defined.

(** * The further properties on sample runs *)

(** Reverse completion and just-in-time completion end alike. *)
Lemma outcome_independent_of_schedule_witness :
  yields two_threads abcde abcde /\
  let s1 := write_body_threads 2 two_threads reversed_completion
              unlimited_sink abcde in
  let s2 := write_body_threads 2 two_threads lazy_completion
              unlimited_sink abcde in
  is_terminal (pc s1) = true /\ is_terminal (pc s2) = true /\
  unready_polls (log s1) = 0 /\ unready_polls (log s2) = 1 /\
  pc s1 = pc s2 /\ os s1 = os s2.
Proof.
  assert (yields two_threads abcde abcde) as Hy.
  { repeat (eapply yields_more; [reflexivity|reflexivity|]).
    apply yields_done. reflexivity. }
  split; [exact Hy|]. intros s1 s2.
  assert (is_terminal (pc s1) = true) as Ht1 by reflexivity.
  assert (is_terminal (pc s2) = true) as Ht2 by reflexivity.
  split; [exact Ht1|]. split; [exact Ht2|].
  split; [reflexivity|]. split; [reflexivity|].
  exact (outcome_independent_of_schedule 2 two_threads abcde
           reversed_completion lazy_completion unlimited_sink abcde
           Hy Ht1 Ht2).
Defined.

(** Two of five chunks are written when the third is about to be
    retrieved. *)
Lemma sink_holds_a_prefix_witness :
  yields one_thread ab_fails_de ab_fails_de /\
  let s := write_body_threads 1 one_thread third_at_59 unlimited_sink
             ab_fails_de in
  let k := count_writes (log s) in
  k = 2 /\
  (k <= length (pool s) <= length ab_fails_de /\
   exists ss,
     map call_chunk (take k ab_fails_de) = map Returns ss /\
     os s = write_all ss unlimited_sink /\
     (badbit (os s) = false ->
      written (os s) = written unlimited_sink +:+ concat_bytes ss)).
Proof.
  assert (yields one_thread ab_fails_de ab_fails_de) as Hy.
  { repeat (eapply yields_more; [reflexivity|reflexivity|]).
    apply yields_done. reflexivity. }
  split; [exact Hy|]. intros s k. split; [reflexivity|].
  exact (sink_holds_a_prefix 1 one_thread ab_fails_de third_at_59
           unlimited_sink ab_fails_de Hy).
Defined.

Lemma nothing_pending_at_return_witness :
  let s := write_body_threads 2 two_threads reversed_completion
             unlimited_sink abcde in
  pc s = Returned /\
  (futures s = [] /\
   (forall id t,
      pool s !! id = Some t -> exists chunk, t = Ready (Returns chunk)) /\
   count_writes (log s) = length (pool s)).
Proof.
  intros s. assert (pc s = Returned) as Hpc by reflexivity.
  split; [exact Hpc|].
  exact (nothing_pending_at_return 2 two_threads reversed_completion
           unlimited_sink abcde Hpc).
Defined.

(** The first write of a run with one thread: it follows the retrieval
    and the pop of future 0, which holds "A". *)
Lemma written_bytes_are_the_retrieved_ones_witness :
  let s := write_body_threads 1 one_thread first_written unlimited_sink
             abcd in
  let pre :=
    [ev_has_next true; ev_next_chunk; ev_submit 0; ev_push 0;
     ev_has_next true; ev_next_chunk; ev_submit 1; ev_push 1;
     ev_has_next true; ev_next_chunk; ev_submit 2; ev_push 2;
     ev_empty false; ev_is_ready 0 true;
     ev_has_next true; ev_next_chunk; ev_submit 3; ev_push 3;
     ev_get 0; ev_pop 0] in
  log s = pre ++ ev_write "A" :: [] /\
  exists pre' id,
    pre = pre' ++ [ev_get id; ev_pop id] /\
    pool s !! id = Some (Ready (Returns "A")).
Proof.
  intros s pre.
  assert (log s = pre ++ ev_write "A" :: []) as Hlog by reflexivity.
  split; [exact Hlog|].
  exact (written_bytes_are_the_retrieved_ones 1 one_thread first_written
           unlimited_sink abcd pre "A" [] Hlog).
Defined.

(** Four tasks were submitted for the four chunks; the first is finished,
    the others are pending. *)
Lemma tasks_are_the_chunks_in_order_witness :
  yields one_thread abcd abcd /\
  let s := write_body_threads 1 one_thread refilled_at_59 unlimited_sink
             abcd in
  length (pool s) = 4 /\
  (length (pool s) <= length abcd /\
   yields one_thread (formatter s) (drop (length (pool s)) abcd) /\
   forall i t,
     pool s !! i = Some t ->
     exists c,
       abcd !! i = Some c /\ (t = Pending c \/ t = Ready (call_chunk c))).
Proof.
  assert (yields one_thread abcd abcd) as Hy.
  { repeat (eapply yields_more; [reflexivity|reflexivity|]).
    apply yields_done. reflexivity. }
  split; [exact Hy|]. intros s. split; [reflexivity|].
  exact (tasks_are_the_chunks_in_order 1 one_thread abcd refilled_at_59
           unlimited_sink abcd Hy).
Defined.
